(** * v-ssr-gen: the component generator of [src/index.js]

    A shallow embedding of the command-line tool: the naming rules of
    [ComponentName] (three regular expressions and two case conversions),
    the file emitter [ComponentGenerator] and the argument parser, followed
    by the properties the specification states about them.

    JavaScript strings are sequences of UTF-16 code units; the regular
    expressions of the program carry no [u] flag, so they see code units.
    The built-ins of the runtime the program calls but does not define
    ([String.prototype.toUpperCase], [toLowerCase], the [fs] and [path]
    modules, [process.cwd]) are variables of the section below. *)

From Stdlib Require Import String Ascii.
From Stdlib Require Import List NArith ZArith Bool Arith Lia.
Import ListNotations.
Open Scope N_scope.
Open Scope list_scope.

(** ** Strings *)

(** A code unit, and a string as the list of its code units. *)
Definition cu := N.
Definition jsstring := list cu.

Definition cu_of_ascii (a : ascii) : cu := N_of_ascii a.

Fixpoint lit (s : string) : jsstring :=
  match s with
  | EmptyString => []
  | String a r => cu_of_ascii a :: lit r
  end.

Fixpoint jsstring_eqb (a b : jsstring) : bool :=
  match a, b with
  | [], [] => true
  | x :: a', y :: b' => (x =? y) && jsstring_eqb a' b'
  | _, _ => false
  end.

(** Truthiness of a value that is [undefined] or a string. *)
Definition truthy (v : option jsstring) : bool :=
  match v with
  | Some (_ :: _) => true
  | _ => false
  end.

(** ** Character classes *)

Definition in_range (lo hi c : cu) : bool := (lo <=? c) && (c <=? hi).

(** [a-z], [A-Z], [0-9] *)
Definition is_lower (c : cu) : bool := in_range 97 122 c.
Definition is_upper (c : cu) : bool := in_range 65 90 c.
Definition is_digit (c : cu) : bool := in_range 48 57 c.

(** [a-zA-Z0-9] *)
Definition is_alnum (c : cu) : bool := is_lower c || is_upper c || is_digit c.

(** LineTerminator: LF, CR, LS, PS. *)
Definition is_line_terminator (c : cu) : bool :=
  (c =? 10) || (c =? 13) || (c =? 0x2028) || (c =? 0x2029).

(** WhiteSpace: TAB, VT, FF, ZWNBSP and the space separators. *)
Definition is_white_space (c : cu) : bool :=
  (c =? 9) || (c =? 11) || (c =? 12) || (c =? 32) || (c =? 0xA0)
  || (c =? 0x1680) || in_range 0x2000 0x200A c || (c =? 0x202F)
  || (c =? 0x205F) || (c =? 0x3000) || (c =? 0xFEFF).

(** [\s] *)
Definition is_space (c : cu) : bool := is_white_space c || is_line_terminator c.

(** [[-_\s]] *)
Definition is_sep (c : cu) : bool := (c =? 45) || (c =? 95) || is_space c.

(** [.] (no [s] flag) *)
Definition is_dot (c : cu) : bool := negb (is_line_terminator c).

(** ** Regular expressions

    The fragment the program uses, matched by backtracking with
    continuations as the language definition describes it: a matcher takes
    a state and a continuation, and a quantifier tries the longer match
    first. *)

Inductive regex : Type :=
| Chars (cls : cu -> bool)
| Bol
| Eol
| Cat (r1 r2 : regex)
| Star (r : regex)
| Plus (r : regex)
| Opt (r : regex)
| Group (n : nat) (r : regex).

Definition captures := nat -> option jsstring.

Definition no_captures : captures := fun _ => None.

Definition set_capture (n : nat) (v : jsstring) (c : captures) : captures :=
  fun m => if Nat.eqb m n then Some v else c m.

(** The state of a match: the index reached, the input from there on and
    the groups captured so far. *)
Record MatchState := mkState {
  endIndex : nat;
  rest : jsstring;
  caps : captures
}.

Definition Continuation := MatchState -> option MatchState.
Definition Matcher := MatchState -> Continuation -> option MatchState.

Definition orelse (a : option MatchState) (b : option MatchState) : option MatchState :=
  match a with
  | Some z => Some z
  | None => b
  end.

(** One more iteration of a greedy quantifier, then the rest; an iteration
    that consumes nothing is refused. *)
Fixpoint repeat_matcher (m : Matcher) (fuel : nat) (x : MatchState) (k : Continuation)
  : option MatchState :=
  match fuel with
  | O => k x
  | S fuel' =>
      orelse
        (m x (fun y =>
                if Nat.ltb (length (rest y)) (length (rest x))
                then repeat_matcher m fuel' y k
                else None))
        (k x)
  end.

Fixpoint rmatch (r : regex) (x : MatchState) (k : Continuation) {struct r}
  : option MatchState :=
  match r with
  | Chars cls =>
      match rest x with
      | c :: tl => if cls c then k (mkState (S (endIndex x)) tl (caps x)) else None
      | [] => None
      end
  | Bol => if Nat.eqb (endIndex x) 0 then k x else None
  | Eol => match rest x with [] => k x | _ :: _ => None end
  | Cat r1 r2 => rmatch r1 x (fun y => rmatch r2 y k)
  | Star r1 => repeat_matcher (rmatch r1) (S (length (rest x))) x k
  | Plus r1 =>
      rmatch r1 x (fun y => repeat_matcher (rmatch r1) (S (length (rest y))) y k)
  | Opt r1 =>
      orelse
        (rmatch r1 x (fun y =>
                        if Nat.ltb (length (rest y)) (length (rest x))
                        then k y else None))
        (k x)
  | Group n r1 =>
      rmatch r1 x (fun y =>
        k (mkState (endIndex y) (rest y)
             (set_capture n (firstn (endIndex y - endIndex x) (rest x)) (caps y))))
  end.

(** The outcome of [exec]: where the match starts, the substring matched and
    the state at its end. *)
Record MatchResult := mkResult {
  index : nat;
  matched : jsstring;
  final : MatchState
}.

Definition group (n : nat) (m : MatchResult) : option jsstring := caps (final m) n.

(** [exec] from [lastIndex]: the first index at or after it where the
    pattern matches. [input] is the string from [lastIndex] on. *)
Fixpoint exec_from (r : regex) (lastIndex : nat) (input : jsstring) : option MatchResult :=
  match rmatch r (mkState lastIndex input no_captures) (fun y => Some y) with
  | Some y => Some (mkResult lastIndex (firstn (endIndex y - lastIndex) input) y)
  | None =>
      match input with
      | [] => None
      | _ :: tl => exec_from r (S lastIndex) tl
      end
  end.

(** [RegExp.prototype.test] of a pattern without the [g] flag. *)
Definition test (r : regex) (s : jsstring) : bool :=
  match exec_from r 0 s with
  | Some _ => true
  | None => false
  end.

(** [String.prototype.replace] with a pattern without the [g] flag: the
    first match only. *)
Definition replace (r : regex) (f : MatchResult -> jsstring) (s : jsstring) : jsstring :=
  match exec_from r 0 s with
  | None => s
  | Some m => firstn (index m) s ++ f m ++ rest (final m)
  end.

(** [String.prototype.replace] with a [g] pattern: every match, left to
    right, each search starting where the previous match ended (one further
    after an empty match). [input] is the string from [lastIndex] on. *)
Fixpoint replace_loop (r : regex) (f : MatchResult -> jsstring)
  (fuel lastIndex : nat) (input : jsstring) : jsstring :=
  match fuel with
  | O => input
  | S fuel' =>
      match exec_from r lastIndex input with
      | None => input
      | Some m =>
          firstn (index m - lastIndex) input ++ f m ++
          (if Nat.eqb (endIndex (final m)) (index m)
           then match rest (final m) with
                | [] => []
                | c :: tl => c :: replace_loop r f fuel' (S (index m)) tl
                end
           else replace_loop r f fuel' (endIndex (final m)) (rest (final m)))
      end
  end.

Definition replace_global (r : regex) (f : MatchResult -> jsstring) (s : jsstring)
  : jsstring :=
  replace_loop r f (S (length s)) 0 s.

(** A replacement string such as ['$1-$2']: literal text and group
    references; a group that did not take part expands to nothing. *)
Inductive template_part : Type :=
| Text (s : jsstring)
| Ref (n : nat).

Definition expand (t : list template_part) (m : MatchResult) : jsstring :=
  concat (map (fun p =>
                 match p with
                 | Text s => s
                 | Ref n => match group n m with Some v => v | None => [] end
                 end) t).

(** [String.prototype.trim]: white space and line terminators off both ends. *)
Fixpoint trimStart (s : jsstring) : jsstring :=
  match s with
  | c :: tl => if is_space c then trimStart tl else s
  | [] => []
  end.

Definition trimEnd (s : jsstring) : jsstring := rev (trimStart (rev s)).

Definition trim (s : jsstring) : jsstring := trimEnd (trimStart s).

(** String conversion of a value that is [undefined] or a string, as a
    template literal does it. *)
Definition toString (v : option jsstring) : jsstring :=
  match v with
  | Some s => s
  | None => lit "undefined"
  end.

(** [v === s] for a value that is [undefined] or a string. *)
Definition strict_eq (v : option jsstring) (s : jsstring) : bool :=
  match v with
  | Some a => jsstring_eqb a s
  | None => false
  end.

Definition newline : jsstring := [10].
Definition dquote : jsstring := [34].

Fixpoint join_lines (ls : list jsstring) : jsstring :=
  match ls with
  | [] => []
  | [l] => l
  | l :: ls' => l ++ newline ++ join_lines ls'
  end.

(** ** ANSI colours *)

Module colors.
Definition reset : jsstring := 27 :: lit "[0m".
Definition red : jsstring := 27 :: lit "[31m".
Definition green : jsstring := 27 :: lit "[32m".
Definition yellow : jsstring := 27 :: lit "[33m".
Definition blue : jsstring := 27 :: lit "[34m".
End colors.

(** ** The patterns of the program *)

(** [/^[a-z][a-zA-Z0-9]*$/] *)
Definition re_camelCase : regex :=
  Cat Bol (Cat (Chars is_lower) (Cat (Star (Chars is_alnum)) Eol)).

(** [/[-_\s]+(.)?/g] *)
Definition re_separators : regex :=
  Cat (Plus (Chars is_sep)) (Opt (Group 1 (Chars is_dot))).

(** [/^([A-Z])/] *)
Definition re_leading_upper : regex :=
  Cat Bol (Group 1 (Chars is_upper)).

(** [/([a-z])([A-Z])/g] *)
Definition re_lower_upper : regex :=
  Cat (Group 1 (Chars is_lower)) (Group 2 (Chars is_upper)).

(** ['$1-$2'] *)
Definition hyphen_between : list template_part := [Ref 1; Text (lit "-"); Ref 2].

(** ** Results of validation: an object whose properties may be absent *)

Record ValidationResult := mkValidation {
  valid : bool;
  value : option jsstring;
  message : option jsstring;
  suggestion : option jsstring
}.

(** ** Effects: console, file system, exceptions and [process.exit] *)

Inductive ConsoleMethod : Type := Log | Warn | Error.

Inductive FsCall : Type :=
| ExistsSync (path : jsstring)
| MkdirSync (path : jsstring)
| WriteFileSync (path : jsstring) (data : jsstring).

Inductive Outcome (A : Type) : Type :=
| Returned (a : A)
| Thrown (error_message : jsstring)
| Exited (code : Z).

Arguments Returned {A} a.
Arguments Thrown {A} error_message.
Arguments Exited {A} code.

Record GeneratedFile := mkFile {
  name : jsstring;
  content : jsstring
}.

Record ComponentGenerator := mkGenerator {
  componentName : jsstring;
  folderName : jsstring;
  language : jsstring
}.

(** ** A small runtime for concrete runs

    The case conversions on the ASCII letters (other code units are left as
    they are), and a file system that is a list of directories and a list of
    files, with paths joined by a slash. *)

Definition ascii_upper (c : cu) : cu := if is_lower c then c - 32 else c.
Definition ascii_lower (c : cu) : cu := if is_upper c then c + 32 else c.

Definition ascii_toUpperCase (s : jsstring) : jsstring := map ascii_upper s.
Definition ascii_toLowerCase (s : jsstring) : jsstring := map ascii_lower s.

Record Disk := mkDisk {
  directories : list jsstring;
  files : list (jsstring * jsstring)
}.

Definition disk_exists (d : Disk) (p : jsstring) : bool :=
  existsb (jsstring_eqb p) (directories d)
  || existsb (fun f => jsstring_eqb p (fst f)) (files d).

Definition disk_mkdir (d : Disk) (p : jsstring) : Disk + jsstring :=
  if disk_exists d p
  then inr (lit "EEXIST: file already exists, mkdir '" ++ p ++ lit "'")
  else inl (mkDisk (p :: directories d) (files d)).

Definition disk_write (d : Disk) (p data : jsstring) : Disk + jsstring :=
  if existsb (jsstring_eqb p) (directories d)
  then inr (lit "EISDIR: illegal operation on a directory, open '" ++ p ++ lit "'")
  else inl (mkDisk (directories d)
              ((p, data) :: filter (fun f => negb (jsstring_eqb p (fst f))) (files d))).

(** A disk on which no directory may be made, and one that holds one file
    at most. *)
Definition denied_mkdir (d : Disk) (p : jsstring) : Disk + jsstring :=
  inr (lit "EACCES: permission denied, mkdir '" ++ p ++ lit "'").


Definition slash_join (a b : jsstring) : jsstring := a ++ lit "/" ++ b.

Definition home : jsstring := lit "/home/dev".

Section Program.

Set Default Proof Using "Type".

(** [String.prototype.toUpperCase] and [toLowerCase] of the runtime. *)
Variable toUpperCase : jsstring -> jsstring.
Variable toLowerCase : jsstring -> jsstring.

(** The [fs] module over a file system [FS]: a call that fails gives the
    message of the exception it throws. *)
Variable FS : Type.
Variable existsSync : FS -> jsstring -> bool.
Variable mkdirSync : FS -> jsstring -> FS + jsstring.
Variable writeFileSync : FS -> jsstring -> jsstring -> FS + jsstring.

(** [path.join] of two segments, and [process.cwd()]. *)
Variable path_join : jsstring -> jsstring -> jsstring.
Variable cwd : jsstring.

(** ** ComponentName *)

(** [(_, c) => c ? c.toUpperCase() : ''] *)
Definition upper_or_empty (m : MatchResult) : jsstring :=
  match group 1 m with
  | Some c => if truthy (Some c) then toUpperCase c else []
  | None => []
  end.

(** [c => c.toLowerCase()] *)
Definition lower_match (m : MatchResult) : jsstring := toLowerCase (matched m).

Definition convertToCamelCase (str : jsstring) : jsstring :=
  replace re_leading_upper lower_match
    (replace_global re_separators upper_or_empty str).

Definition toDashCase (str : jsstring) : jsstring :=
  toLowerCase (replace_global re_lower_upper (expand hyphen_between) str).

Definition validate (name : option jsstring) : ValidationResult :=
  if negb (truthy name)
  then mkValidation false None (Some (lit "Component name is required")) None
  else
    let isCamelCase := test re_camelCase (toString name) in
    if negb isCamelCase
    then mkValidation false None
           (Some (lit "Component name must be camelCase"))
           (Some (convertToCamelCase (toString name)))
    else mkValidation true name None None.

(** ** The process: console output, the disk and the calls made to [fs] *)

Record World := mkWorld {
  disk : FS;
  console : list (ConsoleMethod * jsstring);
  fs_calls : list FsCall
}.

Definition IO (A : Type) : Type := World -> Outcome A * World.

Definition ret {A : Type} (a : A) : IO A := fun w => (Returned a, w).

Definition bind {A B : Type} (m : IO A) (f : A -> IO B) : IO B :=
  fun w =>
    match m w with
    | (Returned a, w') => f a w'
    | (Thrown e, w') => (Thrown e, w')
    | (Exited c, w') => (Exited c, w')
    end.

(** [try { m } catch (error) { h error.message }]; [process.exit] is not an
    exception and is not caught. *)
Definition try_catch {A : Type} (m : IO A) (h : jsstring -> IO A) : IO A :=
  fun w =>
    match m w with
    | (Thrown e, w') => h e w'
    | r => r
    end.

Definition process_exit {A : Type} (code : Z) : IO A := fun w => (Exited code, w).

Definition throw {A : Type} (e : jsstring) : IO A := fun w => (Thrown e, w).

Definition console_call (method : ConsoleMethod) (line : jsstring) : IO unit :=
  fun w => (Returned tt, mkWorld (disk w) (console w ++ [(method, line)]) (fs_calls w)).

Definition fs_existsSync (p : jsstring) : IO bool :=
  fun w =>
    (Returned (existsSync (disk w) p),
     mkWorld (disk w) (console w) (fs_calls w ++ [ExistsSync p])).

Definition fs_mkdirSync (p : jsstring) : IO unit :=
  fun w =>
    let calls := fs_calls w ++ [MkdirSync p] in
    match mkdirSync (disk w) p with
    | inl d => (Returned tt, mkWorld d (console w) calls)
    | inr e => (Thrown e, mkWorld (disk w) (console w) calls)
    end.

Definition fs_writeFileSync (p data : jsstring) : IO unit :=
  fun w =>
    let calls := fs_calls w ++ [WriteFileSync p data] in
    match writeFileSync (disk w) p data with
    | inl d => (Returned tt, mkWorld d (console w) calls)
    | inr e => (Thrown e, mkWorld (disk w) (console w) calls)
    end.

Notation "x <- m ;; k" := (bind m (fun x => k))
  (at level 61, m at next level, right associativity).
Notation "m ;; k" := (bind m (fun _ => k))
  (at level 61, right associativity).

(** [for (const x of xs) body] *)
Fixpoint for_of {A : Type} (xs : list A) (body : A -> IO unit) : IO unit :=
  match xs with
  | [] => ret tt
  | x :: xs' => body x ;; for_of xs' body
  end.

(** ** ComponentGenerator *)

(** [constructor(componentName, language = 'ts')] *)
Definition new_ComponentGenerator (componentName : jsstring)
  (language : option jsstring) : ComponentGenerator :=
  mkGenerator componentName (toDashCase componentName)
    (match language with Some l => l | None => lit "ts" end).

(** The lines the two logic templates share, from the one after the
    opening back quote to [export const ... = defineComponent({]. *)
Definition template_head (this : ComponentGenerator) : list jsstring :=
  [ [];
    lit "import { defineComponent } from " ++ dquote ++ lit "vue" ++ dquote ++ lit ";";
    [];
    lit "const fs = require(" ++ dquote ++ lit "fs" ++ dquote ++ lit ");";
    lit "const path = require(" ++ dquote ++ lit "path" ++ dquote ++ lit ");";
    [];
    lit "const htmlPath = path.join(__dirname, " ++ dquote ++ componentName this
      ++ lit ".component.html" ++ dquote ++ lit ");";
    lit "const htmlString = fs.readFileSync(htmlPath, { encoding: " ++ dquote
      ++ lit "utf8" ++ dquote ++ lit " });";
    lit "const stylePath = path.join(__dirname, " ++ dquote ++ componentName this
      ++ lit ".component.style.html" ++ dquote ++ lit ");";
    lit "const styleString = fs.readFileSync(stylePath, { encoding: " ++ dquote
      ++ lit "utf8" ++ dquote ++ lit " });";
    lit "const templateString = htmlString + styleString;";
    [];
    lit "export const " ++ componentName this ++ lit " = defineComponent({" ].

Definition generateTsContent (this : ComponentGenerator) : jsstring :=
  trim (join_lines (template_head this ++
    [ lit "    props: {";
      lit "        title: { type: String, default: " ++ dquote ++ dquote ++ lit " },";
      lit "    },";
      lit "    template: templateString";
      lit "});" ])).

Definition generateJsContent (this : ComponentGenerator) : jsstring :=
  trim (join_lines (template_head this ++
    [ lit "    props: {";
      lit "        title: {";
      lit "            type: String,";
      lit "            default: " ++ dquote ++ dquote;
      lit "        }";
      lit "    },";
      lit "    template: templateString";
      lit "});" ])).

Definition generateHtmlContent (this : ComponentGenerator) : jsstring :=
  lit "<div>{{title}}</div>".

Definition generateStyleContent (this : ComponentGenerator) : jsstring :=
  lit "<style></style>".

(** The array [files] of [create]. *)
Definition files_of (this : ComponentGenerator) : list GeneratedFile :=
  [ mkFile (componentName this ++ lit ".component." ++ language this)
      (if jsstring_eqb (language this) (lit "ts")
       then generateTsContent this else generateJsContent this);
    mkFile (componentName this ++ lit ".component.html") (generateHtmlContent this);
    mkFile (componentName this ++ lit ".component.style.html")
      (generateStyleContent this) ].

Definition create (this : ComponentGenerator) : IO unit :=
  try_catch
    (let dir := path_join cwd (folderName this) in
     present <- fs_existsSync dir ;;
     (if present : bool
      then console_call Error
             (colors.red ++ [0x274C] ++ lit " Error: Directory " ++ folderName this
              ++ lit " already exists" ++ colors.reset) ;;
           process_exit 1
      else ret tt) ;;
     fs_mkdirSync dir ;;
     console_call Log
       (colors.green ++ [0x2713] ++ lit " Created directory: " ++ colors.reset
        ++ folderName this) ;;
     let files := files_of this in
     console_call Log (newline ++ [0xD83D; 0xDCDD] ++ lit " Generating files:") ;;
     for_of files (fun file =>
       fs_writeFileSync (path_join dir (name file)) (content file) ;;
       console_call Log
         (colors.green ++ [0x2713] ++ lit " Created: " ++ colors.reset ++ name file)))
    (fun error_message =>
       console_call Error
         (colors.red ++ [0x274C] ++ lit " Error: " ++ error_message ++ colors.reset) ;;
       process_exit 1).

(** ** The command line *)

Definition rule : jsstring := lit "----------------------------------------".

Definition is_name_flag (a : option jsstring) : bool :=
  strict_eq a (lit "-n") || strict_eq a (lit "--name").

Definition is_language_flag (a : option jsstring) : bool :=
  strict_eq a (lit "-l") || strict_eq a (lit "--language").

(** The [for] loop of [parseArgs]: [n] iterations are left, from index [i]. *)
Fixpoint parseArgs_for (args : list jsstring) (n i : nat)
  (componentName : option jsstring) (language : jsstring)
  : IO (option jsstring * jsstring) :=
  match n with
  | O => ret (componentName, language)
  | S n' =>
      let componentName' :=
        if is_name_flag (nth_error args i)
        then nth_error args (i + 1) else componentName in
      if is_language_flag (nth_error args i)
      then
        let lang := option_map toLowerCase (nth_error args (i + 1)) in
        if strict_eq lang (lit "js") || strict_eq lang (lit "ts")
        then parseArgs_for args n' (S i) componentName' (toString lang)
        else
          console_call Error
            (colors.red ++ lit "Error: Invalid language. Use 'js' or 'ts'"
             ++ colors.reset) ;;
          process_exit 1
      else parseArgs_for args n' (S i) componentName' language
  end.

(** [args] is [process.argv.slice(2)]. *)
Definition parseArgs (args : list jsstring) : IO (option jsstring * jsstring) :=
  parseArgs_for args (length args) 0 None (lit "ts").

Definition main (args : list jsstring) : IO unit :=
  try_catch
    (parsed <- parseArgs args ;;
     let componentName := fst parsed in
     let language := snd parsed in
     (if negb (truthy componentName)
      then console_call Error
             (colors.red ++ lit "Error: Component name is required. Use -n or --name flag."
              ++ colors.reset) ;;
           console_call Log
             (colors.yellow ++ newline ++ lit "Example: node index.js -n myComponent"
              ++ colors.reset) ;;
           process_exit 1
      else ret tt) ;;
     console_call Log
       (newline ++ [0xD83D; 0xDE80] ++ lit " Starting Vue Component Generator...") ;;
     console_call Log rule ;;
     console_call Log
       ([0xD83D; 0xDCDD] ++ lit " Requested name: " ++ colors.blue
        ++ toString componentName ++ colors.reset) ;;
     console_call Log
       ([0xD83D; 0xDEE0] ++ lit "  Language: " ++ colors.blue ++ language
        ++ colors.reset) ;;
     console_call Log (rule ++ newline) ;;
     let validation := validate componentName in
     (if negb (valid validation)
      then
        console_call Warn
          (colors.yellow ++ [0x26A0] ++ lit " Warning: "
           ++ toString (message validation) ++ colors.reset) ;;
        if truthy (suggestion validation)
        then
          let suggestion := toString (suggestion validation) in
          console_call Log
            (colors.blue ++ [0x2713] ++ lit " Converting to: " ++ colors.green
             ++ suggestion ++ colors.reset ++ newline) ;;
          let generator := new_ComponentGenerator suggestion (Some language) in
          create generator
        else process_exit 1
      else
        let generator :=
          new_ComponentGenerator (toString componentName) (Some language) in
        create generator) ;;
     console_call Log (newline ++ [0x2728] ++ lit " Generation Complete!") ;;
     console_call Log rule ;;
     let componentPath := path_join cwd (toDashCase (toString componentName)) in
     console_call Log
       ([0xD83D; 0xDCC1] ++ lit " Location: " ++ colors.green ++ componentPath
        ++ colors.reset) ;;
     console_call Log
       ([0xD83D; 0xDCE6] ++ lit " Component: " ++ colors.green
        ++ toDashCase (toString componentName) ++ colors.reset) ;;
     console_call Log rule)
    (fun error_message =>
       console_call Error
         (colors.red ++ lit "Error: " ++ error_message ++ colors.reset) ;;
       process_exit 1).

(** ** The specification's words

    The descriptions the specification gives of the pattern and of the two
    conversions, written out directly; the properties below compare them
    with the functions of the program. *)

(** A lowercase letter followed by letters and digits only. *)
Definition camelCase_name (s : jsstring) : Prop :=
  exists c tl, s = c :: tl /\ is_lower c = true /\ Forall (fun d => is_alnum d = true) tl.

(** Outside a run of separators a character is kept ([camel_runs]); inside
    one, separators are dropped and the character that ends the run is
    upper-cased ([after_run]); a run that reaches the end leaves nothing. *)
Fixpoint camel_runs (s : jsstring) : jsstring :=
  match s with
  | [] => []
  | c :: tl => if is_sep c then after_run tl else c :: camel_runs tl
  end
with after_run (s : jsstring) : jsstring :=
  match s with
  | [] => []
  | c :: tl => if is_sep c then after_run tl else toUpperCase [c] ++ camel_runs tl
  end.

(** A single leading uppercase letter is lower-cased. *)
Definition lower_leading (s : jsstring) : jsstring :=
  match s with
  | c :: tl => if is_upper c then toLowerCase [c] ++ tl else s
  | [] => []
  end.

(** A hyphen between every lowercase letter and the uppercase letter right
    after it. *)
Fixpoint hyphenate (s : jsstring) : jsstring :=
  match s with
  | [] => []
  | c1 :: tl =>
      match tl with
      | c2 :: _ =>
          if is_lower c1 && is_upper c2
          then c1 :: 45 :: hyphenate tl
          else c1 :: hyphenate tl
      | [] => [c1]
      end
  end.

(** A flag value equals a language tag but for case when lower-casing it
    gives the tag. *)
Definition equals_ignoring_case (v tag : jsstring) : Prop := toLowerCase v = tag.

(** The end of the longest run of [p] from index [e] of [s]. *)
Fixpoint skip_run (p : cu -> bool) (e : nat) (s : jsstring) : nat * jsstring :=
  match s with
  | c :: tl => if p c then skip_run p (S e) tl else (e, s)
  | [] => (e, [])
  end.

(** ** Further notions used by the properties *)

(** The world [w] with more lines on the console. *)
Definition logged (w : World) (lines : list (ConsoleMethod * jsstring)) : World :=
  mkWorld (disk w) (console w ++ lines) (fs_calls w).

(** The calls [create] makes to [fs] when nothing fails, in order. *)
Definition planned_calls (this : ComponentGenerator) : list FsCall :=
  let dir := path_join cwd (folderName this) in
  ExistsSync dir :: MkdirSync dir ::
  map (fun file => WriteFileSync (path_join dir (name file)) (content file))
    (files_of this).

(** The name [main] hands to the generator: the requested name when it is
    of the camelCase form, the suggestion otherwise. *)
Definition effective_name (s : jsstring) : jsstring :=
  if test re_camelCase s then s else convertToCamelCase s.

(** Code units of the ASCII range, and what the case conversions of the
    runtime do there. *)
Definition is_ascii (c : cu) : bool := c <? 128.

Definition lowers_ascii (f : jsstring -> jsstring) : Prop :=
  forall s, forallb is_ascii s = true -> f s = map ascii_lower s.

Definition uppers_ascii (f : jsstring -> jsstring) : Prop :=
  forall s, forallb is_ascii s = true -> f s = map ascii_upper s.

(** [a-zA-Z] *)
Definition is_letter (c : cu) : bool := is_lower c || is_upper c.

(** Every uppercase letter of [s] comes right after a lowercase letter
    ([prev_lower] says whether the character before [s] is one). *)
Fixpoint uppers_follow_lowers (prev_lower : bool) (s : jsstring) : bool :=
  match s with
  | [] => true
  | c :: tl => (negb (is_upper c) || prev_lower) && uppers_follow_lowers (is_lower c) tl
  end.



Definition invalid_language_line : ConsoleMethod * jsstring :=
  (Error, colors.red ++ lit "Error: Invalid language. Use 'js' or 'ts'" ++ colors.reset).

(** The lines [create] prints. *)
Definition directory_exists_line (this : ComponentGenerator) : ConsoleMethod * jsstring :=
  (Error, colors.red ++ [0x274C] ++ lit " Error: Directory " ++ folderName this
          ++ lit " already exists" ++ colors.reset).

Definition failure_line (e : jsstring) : ConsoleMethod * jsstring :=
  (Error, colors.red ++ [0x274C] ++ lit " Error: " ++ e ++ colors.reset).

Definition created_directory_line (this : ComponentGenerator) : ConsoleMethod * jsstring :=
  (Log, colors.green ++ [0x2713] ++ lit " Created directory: " ++ colors.reset
        ++ folderName this).

Definition generating_line : ConsoleMethod * jsstring :=
  (Log, newline ++ [0xD83D; 0xDCDD] ++ lit " Generating files:").

Definition created_line (file : GeneratedFile) : ConsoleMethod * jsstring :=
  (Log, colors.green ++ [0x2713] ++ lit " Created: " ++ colors.reset ++ name file).

(** The [k]-th file of [create], and the path it is written to. *)
Definition file_at (k : nat) (this : ComponentGenerator) : GeneratedFile :=
  nth k (files_of this) (mkFile [] []).

Definition target (this : ComponentGenerator) : jsstring :=
  path_join cwd (folderName this).

Definition path_at (k : nat) (this : ComponentGenerator) : jsstring :=
  path_join (target this) (name (file_at k this)).

(** The world after [create] has made its first [k] calls to [fs], leaving
    the disk [d] and having printed [lines]. *)
Definition after (this : ComponentGenerator) (w : World) (d : FS)
  (lines : list (ConsoleMethod * jsstring)) (k : nat) : World :=
  mkWorld d (console w ++ lines) (fs_calls w ++ firstn k (planned_calls this)).

(** The six ways a run of [create] can go: the directory exists, [mkdirSync]
    throws, one of the three [writeFileSync] throws, or all succeed. *)
Inductive create_result (this : ComponentGenerator) (w : World)
  : Outcome unit * World -> Prop :=
| directory_exists :
    existsSync (disk w) (target this) = true ->
    create_result this w
      (Exited 1, after this w (disk w) [directory_exists_line this] 1)
| mkdir_throws (e : jsstring) :
    existsSync (disk w) (target this) = false ->
    mkdirSync (disk w) (target this) = inr e ->
    create_result this w (Exited 1, after this w (disk w) [failure_line e] 2)
| first_write_throws (d1 : FS) (e : jsstring) :
    existsSync (disk w) (target this) = false ->
    mkdirSync (disk w) (target this) = inl d1 ->
    writeFileSync d1 (path_at 0 this) (content (file_at 0 this)) = inr e ->
    create_result this w
      (Exited 1,
       after this w d1
         [created_directory_line this; generating_line; failure_line e] 3)
| second_write_throws (d1 d2 : FS) (e : jsstring) :
    existsSync (disk w) (target this) = false ->
    mkdirSync (disk w) (target this) = inl d1 ->
    writeFileSync d1 (path_at 0 this) (content (file_at 0 this)) = inl d2 ->
    writeFileSync d2 (path_at 1 this) (content (file_at 1 this)) = inr e ->
    create_result this w
      (Exited 1,
       after this w d2
         [created_directory_line this; generating_line;
          created_line (file_at 0 this); failure_line e] 4)
| third_write_throws (d1 d2 d3 : FS) (e : jsstring) :
    existsSync (disk w) (target this) = false ->
    mkdirSync (disk w) (target this) = inl d1 ->
    writeFileSync d1 (path_at 0 this) (content (file_at 0 this)) = inl d2 ->
    writeFileSync d2 (path_at 1 this) (content (file_at 1 this)) = inl d3 ->
    writeFileSync d3 (path_at 2 this) (content (file_at 2 this)) = inr e ->
    create_result this w
      (Exited 1,
       after this w d3
         [created_directory_line this; generating_line;
          created_line (file_at 0 this); created_line (file_at 1 this);
          failure_line e] 5)
| all_written (d1 d2 d3 d4 : FS) :
    existsSync (disk w) (target this) = false ->
    mkdirSync (disk w) (target this) = inl d1 ->
    writeFileSync d1 (path_at 0 this) (content (file_at 0 this)) = inl d2 ->
    writeFileSync d2 (path_at 1 this) (content (file_at 1 this)) = inl d3 ->
    writeFileSync d3 (path_at 2 this) (content (file_at 2 this)) = inl d4 ->
    create_result this w
      (Returned tt,
       after this w d4
         [created_directory_line this; generating_line;
          created_line (file_at 0 this); created_line (file_at 1 this);
          created_line (file_at 2 this)] 5).

(** Two worlds with the same disk and the same calls made to [fs]; the
    console may differ. *)
Definition same_files (w1 w2 : World) : Prop :=
  disk w1 = disk w2 /\ fs_calls w1 = fs_calls w2.

(** The lines [main] prints when the name is missing. *)
Definition name_required_line : ConsoleMethod * jsstring :=
  (Error, colors.red ++ lit "Error: Component name is required. Use -n or --name flag."
          ++ colors.reset).

Definition example_line : ConsoleMethod * jsstring :=
  (Log, colors.yellow ++ newline ++ lit "Example: node index.js -n myComponent"
        ++ colors.reset).

Ltac same_step :=
  match goal with
  | H1 : ?x = inl ?a, H2 : ?x = inl ?b |- _ =>
      let E := fresh in
      assert (E : a = b) by (rewrite H1 in H2; now injection H2);
      subst b; clear H2
  | H1 : ?x = inr ?a, H2 : ?x = inr ?b |- _ =>
      let E := fresh in
      assert (E : a = b) by (rewrite H1 in H2; now injection H2);
      subst b; clear H2
  | H1 : ?x = inl _, H2 : ?x = inr _ |- _ => rewrite H1 in H2; discriminate H2
  | H1 : ?x = true, H2 : ?x = false |- _ => rewrite H1 in H2; discriminate H2
  end.

(** * Properties *)

(** ** Character classes *)

Lemma upper_not_lower (c : cu) : is_upper c = true -> is_lower c = false.
Proof.
  unfold is_upper, is_lower, in_range.
  rewrite andb_true_iff, andb_false_iff, !N.leb_le, !N.leb_gt. lia.
Qed.

Lemma lower_not_upper (c : cu) : is_lower c = true -> is_upper c = false.
Proof.
  unfold is_upper, is_lower, in_range.
  rewrite andb_true_iff, andb_false_iff, !N.leb_le, !N.leb_gt. lia.
Qed.

Lemma alnum_not_sep (c : cu) : is_alnum c = true -> is_sep c = false.
Proof.
  unfold is_alnum, is_lower, is_upper, is_digit, in_range. intros H.
  rewrite !orb_true_iff, !andb_true_iff, !N.leb_le in H.
  unfold is_sep, is_space, is_white_space, is_line_terminator, in_range.
  rewrite !orb_false_iff, andb_false_iff, !N.eqb_neq, !N.leb_gt. lia.
Qed.

Lemma not_sep_dot (c : cu) : is_sep c = false -> is_dot c = true.
Proof.
  unfold is_sep, is_space, is_dot. rewrite !orb_false_iff.
  intros [_ [_ H]]. now rewrite H.
Qed.

(** ** The matcher on the patterns of the program *)

Lemma length_lt_cons (c : cu) (tl : jsstring) :
  Nat.ltb (length tl) (length (c :: tl)) = true.
Proof. apply Nat.ltb_lt. simpl. lia. Qed.

Lemma succ_minus (e : nat) : (S e - e)%nat = 1%nat.
Proof. lia. Qed.

(** A greedy run of one class followed by a continuation that cannot fail
    stops at the end of the longest run. *)
Lemma repeat_chars_greedy (p : cu -> bool) (k : Continuation) :
  (forall y, k y <> None) ->
  forall fuel e s c0,
    (length s < fuel)%nat ->
    repeat_matcher (rmatch (Chars p)) fuel (mkState e s c0) k =
    k (mkState (fst (skip_run p e s)) (snd (skip_run p e s)) c0).
Proof.
  intros Hk. induction fuel as [| fuel IH]; intros e s c0 Hlen; [lia |].
  destruct s as [| c tl];
    cbn [repeat_matcher rmatch rest endIndex caps orelse skip_run fst snd].
  - reflexivity.
  - destruct (p c) eqn:Hp; cbn [fst snd orelse]; [| reflexivity].
    rewrite length_lt_cons. rewrite IH by (simpl in Hlen; lia).
    destruct (k _) eqn:Hk'; [reflexivity | now apply Hk in Hk'].
Qed.

(** A greedy run of one class followed by [$]: the whole remaining input
    must be in the class. *)
Lemma repeat_chars_eol (p : cu -> bool) :
  forall fuel e s c0,
    (length s < fuel)%nat ->
    repeat_matcher (rmatch (Chars p)) fuel (mkState e s c0)
      (fun y => rmatch Eol y (fun z => Some z)) =
    if forallb p s then Some (mkState (e + length s) [] c0) else None.
Proof.
  induction fuel as [| fuel IH]; intros e s c0 Hlen; [lia |].
  destruct s as [| c tl];
    cbn [repeat_matcher rmatch rest endIndex caps orelse forallb andb].
  - cbn [length]. now rewrite Nat.add_0_r.
  - destruct (p c) eqn:Hp; cbn [orelse andb]; [| reflexivity].
    rewrite length_lt_cons. rewrite IH by (simpl in Hlen; lia).
    destruct (forallb p tl); cbn [orelse]; [| reflexivity].
    cbn [length]. now rewrite Nat.add_succ_r.
Qed.

Lemma skip_run_index (p : cu -> bool) (s : jsstring) :
  forall e, (e <= fst (skip_run p e s))%nat.
Proof.
  induction s as [| c tl IH]; intros e; simpl; [lia |].
  destruct (p c); simpl; [| lia]. specialize (IH (S e)). lia.
Qed.

Lemma skip_run_length (p : cu -> bool) (s : jsstring) :
  forall e, (length (snd (skip_run p e s)) <= length s)%nat.
Proof.
  induction s as [| c tl IH]; intros e; simpl; [lia |].
  destruct (p c); simpl; [| lia]. specialize (IH (S e)). lia.
Qed.

Lemma skip_run_stops (p : cu -> bool) (s : jsstring) :
  forall e d r, snd (skip_run p e s) = d :: r -> p d = false.
Proof.
  induction s as [| c tl IH]; intros e d r; simpl; [discriminate |].
  destruct (p c) eqn:Hp; simpl.
  - apply IH.
  - intros H. now inversion H; subst.
Qed.

Lemma skip_run_rest (p : cu -> bool) (s : jsstring) :
  forall e e', snd (skip_run p e s) = snd (skip_run p e' s).
Proof.
  induction s as [| c tl IH]; intros e e'; simpl; [reflexivity |].
  destruct (p c); simpl; [apply IH | reflexivity].
Qed.

(** A pattern anchored by [^] matches at index 0 or nowhere. *)
Lemma exec_from_bol_later (r : regex) (input : jsstring) :
  forall i, exec_from (Cat Bol r) (S i) input = None.
Proof.
  induction input as [| c tl IH]; intros i; simpl; [reflexivity | apply IH].
Qed.

Lemma exec_from_bol (r : regex) (input : jsstring) :
  exec_from (Cat Bol r) 0 input =
  match rmatch r (mkState 0 input no_captures) (fun y => Some y) with
  | Some y => Some (mkResult 0 (firstn (endIndex y - 0) input) y)
  | None => None
  end.
Proof.
  destruct input as [| c tl]; simpl.
  - reflexivity.
  - destruct (rmatch r _ _); [reflexivity | apply exec_from_bol_later].
Qed.

Lemma exec_from_index (r : regex) (input : jsstring) :
  forall i m, exec_from r i input = Some m -> (i <= index m)%nat.
Proof.
  induction input as [| c tl IH]; intros i m; simpl.
  - destruct (rmatch r _ _); [| discriminate].
    intros H. inversion H. simpl. lia.
  - destruct (rmatch r _ _).
    + intros H. inversion H. simpl. lia.
    + intros H. apply IH in H. lia.
Qed.

(** One turn of the global replacement where the pattern does not match at
    the current index: the character there is kept. *)
Lemma replace_loop_miss (r : regex) (f : MatchResult -> jsstring)
  (n i : nat) (c : cu) (tl : jsstring) :
  rmatch r (mkState i (c :: tl) no_captures) (fun y => Some y) = None ->
  replace_loop r f (S n) i (c :: tl) = c :: replace_loop r f (S n) (S i) tl.
Proof.
  intros Hm. cbn [replace_loop]. cbn [exec_from]. rewrite Hm.
  destruct (exec_from r (S i) tl) as [m |] eqn:He; [| reflexivity].
  apply exec_from_index in He.
  replace (index m - i)%nat with (S (index m - S i)) by lia.
  reflexivity.
Qed.

(** One turn where the pattern matches at the current index. *)
Lemma replace_loop_hit (r : regex) (f : MatchResult -> jsstring)
  (n i : nat) (input : jsstring) (y : MatchState) :
  rmatch r (mkState i input no_captures) (fun y => Some y) = Some y ->
  (i < endIndex y)%nat ->
  replace_loop r f (S n) i input =
  f (mkResult i (firstn (endIndex y - i) input) y)
  ++ replace_loop r f n (endIndex y) (rest y).
Proof.
  intros Hm Hlt. cbn [replace_loop].
  assert (He : exec_from r i input
               = Some (mkResult i (firstn (endIndex y - i) input) y)).
  { destruct input; simpl; now rewrite Hm. }
  rewrite He. cbn [index final]. rewrite Nat.sub_diag. cbn [firstn app].
  destruct (Nat.eqb_spec (endIndex y) i); [lia | reflexivity].
Qed.

Lemma replace_loop_nil (r : regex) (f : MatchResult -> jsstring) (n i : nat) :
  rmatch r (mkState i [] no_captures) (fun y => Some y) = None ->
  replace_loop r f n i [] = [].
Proof.
  intros Hm. destruct n; simpl; [reflexivity | now rewrite Hm].
Qed.

(** *** [/^[a-z][a-zA-Z0-9]*$/] *)

Lemma rmatch_cat (r1 r2 : regex) (x : MatchState) (k : Continuation) :
  rmatch (Cat r1 r2) x k = rmatch r1 x (fun y => rmatch r2 y k).
Proof. reflexivity. Qed.

Lemma rmatch_chars (p : cu -> bool) (e : nat) (c : cu) (tl : jsstring)
  (c0 : captures) (k : Continuation) :
  rmatch (Chars p) (mkState e (c :: tl) c0) k =
  if p c then k (mkState (S e) tl c0) else None.
Proof. reflexivity. Qed.

Lemma rmatch_star_eol (p : cu -> bool) (e : nat) (s : jsstring) (c0 : captures) :
  rmatch (Cat (Star (Chars p)) Eol) (mkState e s c0) (fun z => Some z) =
  if forallb p s then Some (mkState (e + length s) [] c0) else None.
Proof. exact (repeat_chars_eol p (S (length s)) e s c0 (Nat.lt_succ_diag_r _)). Qed.

Lemma test_camelCase (s : jsstring) :
  test re_camelCase s =
  match s with
  | c :: tl => is_lower c && forallb is_alnum tl
  | [] => false
  end.
Proof.
  unfold test, re_camelCase. rewrite exec_from_bol.
  destruct s as [| c tl]; [reflexivity |].
  rewrite rmatch_cat, rmatch_chars.
  destruct (is_lower c); cbn [andb]; [| reflexivity].
  rewrite rmatch_star_eol.
  now destruct (forallb is_alnum tl).
Qed.

Lemma camelCase_name_test (s : jsstring) :
  camelCase_name s <-> test re_camelCase s = true.
Proof.
  rewrite test_camelCase. split.
  - intros (c & tl & -> & Hc & Htl). rewrite Hc. cbn [andb].
    apply forallb_forall. now apply Forall_forall.
  - destruct s as [| c tl]; [discriminate |].
    intros H. apply andb_true_iff in H. destruct H as [Hc Htl].
    exists c, tl. repeat split; [assumption |].
    apply Forall_forall. now apply forallb_forall.
Qed.

Lemma camelCase_name_nonempty (s : jsstring) : camelCase_name s -> truthy (Some s) = true.
Proof. now intros (c & tl & -> & _). Qed.

(** *** [/[-_\s]+(.)?/g] *)

Lemma rmatch_separators_nil (e : nat) :
  rmatch re_separators (mkState e [] no_captures) (fun y => Some y) = None.
Proof. reflexivity. Qed.

Lemma rmatch_separators_miss (e : nat) (c : cu) (tl : jsstring) :
  is_sep c = false ->
  rmatch re_separators (mkState e (c :: tl) no_captures) (fun y => Some y) = None.
Proof. intros H. unfold re_separators. cbn [rmatch rest]. now rewrite H. Qed.

Lemma rmatch_plus_chars (p : cu -> bool) (r2 : regex) (e : nat) (c : cu)
  (tl : jsstring) (c0 : captures) (k : Continuation) :
  (forall y, rmatch r2 y k <> None) ->
  rmatch (Cat (Plus (Chars p)) r2) (mkState e (c :: tl) c0) k =
  if p c
  then rmatch r2 (mkState (fst (skip_run p (S e) tl)) (snd (skip_run p (S e) tl)) c0) k
  else None.
Proof.
  intros Hk.
  change (rmatch (Cat (Plus (Chars p)) r2) (mkState e (c :: tl) c0) k)
    with (if p c
          then repeat_matcher (rmatch (Chars p)) (S (length tl)) (mkState (S e) tl c0)
                 (fun y => rmatch r2 y k)
          else None).
  destruct (p c); [| reflexivity].
  now rewrite repeat_chars_greedy by (assumption || lia).
Qed.

Lemma rmatch_opt_group_chars (n : nat) (p : cu -> bool) (e : nat) (s : jsstring)
  (c0 : captures) :
  rmatch (Opt (Group n (Chars p))) (mkState e s c0) (fun y => Some y) =
  Some (match s with
        | d :: r => if p d then mkState (S e) r (set_capture n [d] c0)
                    else mkState e s c0
        | [] => mkState e [] c0
        end).
Proof.
  destruct s as [| d r]; cbn [rmatch rest endIndex caps orelse]; [reflexivity |].
  destruct (p d); cbn [orelse]; [| reflexivity].
  now rewrite length_lt_cons, succ_minus.
Qed.

(** At a separator the match takes the whole run and the character after
    it, which becomes group 1; at the end of the input the group is unset. *)
Lemma rmatch_separators_hit (e : nat) (c : cu) (tl : jsstring) :
  is_sep c = true ->
  rmatch re_separators (mkState e (c :: tl) no_captures) (fun y => Some y) =
  Some (match snd (skip_run is_sep (S e) tl) with
        | [] => mkState (fst (skip_run is_sep (S e) tl)) [] no_captures
        | d :: r => mkState (S (fst (skip_run is_sep (S e) tl))) r
                      (set_capture 1 [d] no_captures)
        end).
Proof.
  intros H. unfold re_separators. rewrite rmatch_plus_chars.
  - rewrite H, rmatch_opt_group_chars.
    destruct (snd (skip_run is_sep (S e) tl)) as [| d r] eqn:Hrun; [reflexivity |].
    apply skip_run_stops in Hrun. apply not_sep_dot in Hrun. now rewrite Hrun.
  - intros [e' s' c']. rewrite rmatch_opt_group_chars. discriminate.
Qed.

Lemma after_run_skip (tl : jsstring) :
  forall e,
    after_run tl =
    match snd (skip_run is_sep e tl) with
    | [] => []
    | d :: r => toUpperCase [d] ++ camel_runs r
    end.
Proof.
  induction tl as [| c tl IH]; intros e; cbn [after_run skip_run]; [reflexivity |].
  destruct (is_sep c); cbn [snd]; [apply IH | reflexivity].
Qed.

Lemma replace_separators_runs :
  forall len s, (length s <= len)%nat ->
  forall n i, (length s < n)%nat ->
    replace_loop re_separators upper_or_empty n i s = camel_runs s.
Proof.
  induction len as [| len IH]; intros s Hlen n i Hn.
  - destruct s; [| simpl in Hlen; lia].
    apply replace_loop_nil, rmatch_separators_nil.
  - destruct s as [| c tl]; [apply replace_loop_nil, rmatch_separators_nil |].
    destruct n as [| n]; [lia |]. simpl in Hlen, Hn.
    cbn [camel_runs]. destruct (is_sep c) eqn:Hc.
    + pose proof (skip_run_index is_sep tl (S i)) as Hidx.
      pose proof (skip_run_length is_sep tl (S i)) as Hrest.
      rewrite (replace_loop_hit _ _ _ _ _ _ (rmatch_separators_hit i c tl Hc)).
      * rewrite (after_run_skip tl (S i)).
        destruct (snd (skip_run is_sep (S i) tl)) as [| d r].
        -- cbn [rest endIndex]. unfold upper_or_empty, group. cbn [final caps].
           cbn [no_captures app].
           apply replace_loop_nil, rmatch_separators_nil.
        -- cbn [rest endIndex]. unfold upper_or_empty at 1, group. cbn [final caps].
           unfold set_capture at 1. cbn [Nat.eqb truthy]. f_equal.
           apply IH; simpl in Hrest; lia.
      * destruct (snd (skip_run is_sep (S i) tl)); cbn [endIndex]; lia.
    + rewrite (replace_loop_miss _ _ _ _ _ _ (rmatch_separators_miss i c tl Hc)).
      f_equal. apply IH; lia.
Qed.

(** *** [/^([A-Z])/] *)

Lemma replace_leading_upper (s : jsstring) :
  replace re_leading_upper lower_match s = lower_leading s.
Proof.
  unfold replace, re_leading_upper. rewrite exec_from_bol.
  destruct s as [| c tl]; cbn [rmatch rest endIndex caps lower_leading]; [reflexivity |].
  destruct (is_upper c); [| reflexivity].
  cbn [index final rest matched endIndex firstn app Nat.sub]. reflexivity.
Qed.

(** *** [/([a-z])([A-Z])/g] *)

Lemma rmatch_lower_upper (e : nat) (s : jsstring) :
  rmatch re_lower_upper (mkState e s no_captures) (fun y => Some y) =
  match s with
  | c1 :: c2 :: r =>
      if is_lower c1 && is_upper c2
      then Some (mkState (S (S e)) r
                   (set_capture 2 [c2] (set_capture 1 [c1] no_captures)))
      else None
  | _ => None
  end.
Proof.
  unfold re_lower_upper. destruct s as [| c1 [| c2 r]];
    cbn [rmatch rest endIndex caps]; [reflexivity | now destruct (is_lower c1) |].
  destruct (is_lower c1); cbn [andb]; [| reflexivity].
  destruct (is_upper c2); [| reflexivity].
  now rewrite !succ_minus.
Qed.

Lemma hyphenate_not_lower (c : cu) (tl : jsstring) :
  is_lower c = false -> hyphenate (c :: tl) = c :: hyphenate tl.
Proof. intros H. destruct tl; cbn [hyphenate]; [reflexivity | now rewrite H]. Qed.

Lemma hyphenate_pair (c1 c2 : cu) (r : jsstring) :
  hyphenate (c1 :: c2 :: r) =
  if is_lower c1 && is_upper c2
  then c1 :: 45 :: hyphenate (c2 :: r)
  else c1 :: hyphenate (c2 :: r).
Proof. reflexivity. Qed.

Lemma replace_lower_upper_hyphenate :
  forall len s, (length s <= len)%nat ->
  forall n i, (length s < n)%nat ->
    replace_loop re_lower_upper (expand hyphen_between) n i s = hyphenate s.
Proof.
  induction len as [| len IH]; intros s Hlen n i Hn.
  - destruct s; [| simpl in Hlen; lia].
    apply replace_loop_nil, rmatch_lower_upper.
  - destruct s as [| c1 tl]; [apply replace_loop_nil, rmatch_lower_upper |].
    destruct n as [| n]; [lia |]. simpl in Hlen, Hn.
    pose proof (rmatch_lower_upper i (c1 :: tl)) as Hm.
    destruct tl as [| c2 r].
    + rewrite (replace_loop_miss _ _ _ _ _ _ Hm).
      cbn [hyphenate]. f_equal; try apply replace_loop_nil, rmatch_lower_upper.
    + destruct (is_lower c1 && is_upper c2) eqn:Hpair.
      * rewrite (replace_loop_hit _ _ _ _ _ _ Hm) by (cbn [endIndex]; lia).
        rewrite hyphenate_pair, Hpair.
        apply andb_true_iff in Hpair. destruct Hpair as [_ Hup].
        rewrite (hyphenate_not_lower c2 r (upper_not_lower c2 Hup)).
        cbn [endIndex rest]. rewrite IH by (simpl in *; lia).
        reflexivity.
      * rewrite (replace_loop_miss _ _ _ _ _ _ Hm).
        rewrite hyphenate_pair, Hpair. f_equal. apply IH; simpl in *; lia.
Qed.

Lemma hyphenate_no_upper (s : jsstring) :
  (forall c, In c s -> is_upper c = false) -> hyphenate s = s.
Proof.
  induction s as [| c1 tl IH]; intros H; [reflexivity |].
  destruct tl as [| c2 r]; [reflexivity |].
  rewrite hyphenate_pair.
  rewrite (H c2) by (simpl; auto). rewrite andb_false_r.
  f_equal. apply IH. intros c Hc. apply H. now right.
Qed.

(** ** The two conversions, from the patterns to plain recursion *)

Lemma convertToCamelCase_runs (str : jsstring) :
  convertToCamelCase str = lower_leading (camel_runs str).
Proof.
  unfold convertToCamelCase, replace_global.
  rewrite (replace_separators_runs (length str)) by lia.
  apply replace_leading_upper.
Qed.

Lemma toDashCase_hyphenate (str : jsstring) :
  toDashCase str = toLowerCase (hyphenate str).
Proof.
  unfold toDashCase, replace_global.
  now rewrite (replace_lower_upper_hyphenate (length str)) by lia.
Qed.

Lemma camel_runs_no_sep (s : jsstring) :
  Forall (fun d => is_sep d = false) s -> camel_runs s = s.
Proof.
  induction 1 as [| c tl Hc _ IH]; cbn [camel_runs]; [reflexivity |].
  now rewrite Hc, IH.
Qed.

Lemma camelCase_name_no_sep (s : jsstring) :
  camelCase_name s -> Forall (fun d => is_sep d = false) s.
Proof.
  intros (c & tl & -> & Hc & Htl). constructor.
  - apply alnum_not_sep. unfold is_alnum. now rewrite Hc.
  - eapply Forall_impl; [| exact Htl]. intros d. apply alnum_not_sep.
Qed.

Lemma convertToCamelCase_camelCase (s : jsstring) :
  camelCase_name s -> convertToCamelCase s = s.
Proof.
  intros H. rewrite convertToCamelCase_runs.
  rewrite (camel_runs_no_sep s (camelCase_name_no_sep s H)).
  destruct H as (c & tl & -> & Hc & _). cbn [lower_leading].
  now rewrite (lower_not_upper c Hc).
Qed.

Lemma runs_empty (s : jsstring) :
  (forall c, toUpperCase [c] <> []) ->
  (camel_runs s = [] <-> forallb is_sep s = true)
  /\ (after_run s = [] <-> forallb is_sep s = true).
Proof.
  intros Hup. induction s as [| c tl [IH1 IH2]]; cbn [camel_runs after_run forallb].
  - split; split; reflexivity.
  - destruct (is_sep c); cbn [andb].
    + split; assumption.
    + split; split; try discriminate.
      intros H. apply app_eq_nil in H. destruct H as [H _]. now apply Hup in H.
Qed.

Lemma lower_leading_empty (s : jsstring) :
  (forall c, toLowerCase [c] <> []) ->
  (lower_leading s = [] <-> s = []).
Proof.
  intros Hlo. destruct s as [| c tl]; cbn [lower_leading]; [split; trivial |].
  destruct (is_upper c); split; try discriminate.
  intros H. apply app_eq_nil in H. destruct H as [H _]. now apply Hlo in H.
Qed.

Lemma validate_truthy (s : jsstring) :
  s <> [] ->
  validate (Some s) =
  if test re_camelCase s
  then mkValidation true (Some s) None None
  else mkValidation false None (Some (lit "Component name must be camelCase"))
         (Some (convertToCamelCase s)).
Proof.
  intros Hs. destruct s as [| c tl]; [congruence |].
  unfold validate. cbn [truthy negb toString].
  now destruct (test re_camelCase (c :: tl)).
Qed.

(** ** The command line and the file emitter *)

Lemma jsstring_eqb_eq (a b : jsstring) : jsstring_eqb a b = true <-> a = b.
Proof.
  revert b. induction a as [| x a IH]; intros [| y b]; cbn [jsstring_eqb];
    try (split; discriminate); [split; trivial |].
  rewrite andb_true_iff, N.eqb_eq, IH. split.
  - now intros [-> ->].
  - intros H. now inversion H.
Qed.

Lemma strict_eq_lowered (v : option jsstring) (tag : jsstring) :
  (forall a, v = Some a -> ~ equals_ignoring_case a tag) ->
  strict_eq (option_map toLowerCase v) tag = false.
Proof.
  intros H. destruct v as [a |]; cbn [option_map strict_eq]; [| reflexivity].
  destruct (jsstring_eqb (toLowerCase a) tag) eqn:E; [| reflexivity].
  apply jsstring_eqb_eq in E. now apply (H a) in E.
Qed.

(** The loop of [parseArgs] stops the process at a language flag whose
    value is refused, whatever came before it, and touches no file. *)
Lemma parseArgs_for_invalid (args : list jsstring) (i : nat) :
  is_language_flag (nth_error args i) = true ->
  strict_eq (option_map toLowerCase (nth_error args (i + 1))) (lit "js")
  || strict_eq (option_map toLowerCase (nth_error args (i + 1))) (lit "ts") = false ->
  forall n i0 componentName language w,
    (i0 <= i < i0 + n)%nat ->
    exists w',
      parseArgs_for args n i0 componentName language w = (Exited 1, w')
      /\ disk w' = disk w /\ fs_calls w' = fs_calls w.
Proof.
  intros Hflag Hbad. induction n as [| n IH]; intros i0 cn lang w Hi; [lia |].
  cbn [parseArgs_for].
  destruct (Nat.eq_dec i0 i) as [-> | Hne].
  - rewrite Hflag, Hbad. eexists. split; [reflexivity |]. split; reflexivity.
  - destruct (is_language_flag (nth_error args i0)).
    + destruct (strict_eq (option_map toLowerCase (nth_error args (i0 + 1))) (lit "js")
                || strict_eq (option_map toLowerCase (nth_error args (i0 + 1))) (lit "ts")).
      * apply IH. lia.
      * eexists. split; [reflexivity |]. split; reflexivity.
    + apply IH. lia.
Qed.

(** Without a language flag the loop runs to its end and leaves the
    language as it was. *)
Lemma parseArgs_for_no_flag (args : list jsstring) :
  (forall i, is_language_flag (nth_error args i) = false) ->
  forall n i0 componentName language w,
    exists name,
      parseArgs_for args n i0 componentName language w = (Returned (name, language), w).
Proof.
  intros Hno. induction n as [| n IH]; intros i0 cn lang w; cbn [parseArgs_for].
  - now exists cn.
  - rewrite Hno. apply IH.
Qed.

Lemma main_parse_exit (args : list jsstring) (w w' : World) :
  parseArgs args w = (Exited 1, w') ->
  main args w = (Exited 1, w').
Proof.
  intros H. unfold main, try_catch, bind. now rewrite H.
Qed.

Lemma not_all_sep (s : jsstring) :
  forallb is_sep s = false <-> exists c, In c s /\ is_sep c = false.
Proof.
  induction s as [| c tl IH]; cbn [forallb].
  - split; [discriminate | intros (c & [] & _)].
  - destruct (is_sep c) eqn:Hc; cbn [andb].
    + rewrite IH. split.
      * intros (d & Hd & Hs). exists d. split; [now right | assumption].
      * intros (d & [-> | Hd] & Hs); [congruence | now exists d].
    + split; [| reflexivity]. intros _. exists c. split; [now left | assumption].
Qed.

(** ** The statements of the specification *)

(** C1: for every string of the form [^[a-z][a-zA-Z0-9]*$], [validate]
    returns a valid result whose [value] is the input itself, with neither a
    message nor a suggestion. *)
Theorem validate_accepts_camelCase (s : jsstring) :
  camelCase_name s ->
  validate (Some s) = mkValidation true (Some s) None None.
Proof.
  intros H. rewrite validate_truthy.
  - apply camelCase_name_test in H. now rewrite H.
  - destruct H as (c & tl & -> & _). discriminate.
Qed.

(** C2: [validate] fails in exactly two ways. An empty or absent name gives
    an invalid result with the message "Component name is required" and no
    suggestion; a non-empty name that is not of the camelCase form gives an
    invalid result with the message "Component name must be camelCase" and
    the suggestion [convertToCamelCase name]; and an invalid result comes
    from one of these two cases only. *)
Theorem validate_rejections (name : option jsstring) :
  (name = None \/ name = Some [] ->
   validate name =
   mkValidation false None (Some (lit "Component name is required")) None)
  /\ (forall s, name = Some s -> s <> [] -> ~ camelCase_name s ->
      validate name =
      mkValidation false None (Some (lit "Component name must be camelCase"))
        (Some (convertToCamelCase s)))
  /\ (valid (validate name) = false ->
      (name = None \/ name = Some [])
      \/ (exists s, name = Some s /\ s <> [] /\ ~ camelCase_name s)).
Proof.
  split; [| split].
  - now intros [-> | ->].
  - intros s -> Hs Hn. rewrite validate_truthy by assumption.
    destruct (test re_camelCase s) eqn:Ht; [| reflexivity].
    now apply camelCase_name_test in Ht.
  - destruct name as [[| c tl] |]; [now left; right | | now left; left].
    rewrite validate_truthy by discriminate.
    destruct (test re_camelCase (c :: tl)) eqn:Ht; [discriminate |].
    intros _. right. exists (c :: tl). repeat split; [discriminate |].
    intros Hc. apply camelCase_name_test in Hc. congruence.
Qed.

(** C3: [convertToCamelCase] replaces each run of hyphens, underscores and
    white space together with the character after it by that character
    upper-cased, drops a run that ends the string, and then lower-cases a
    single leading uppercase letter. *)
Theorem convertToCamelCase_spec (str : jsstring) :
  convertToCamelCase str = lower_leading (camel_runs str).
Proof. apply convertToCamelCase_runs. Qed.

(** C4: [toDashCase] puts a hyphen between every lowercase letter and the
    uppercase letter that follows it, and then lower-cases the whole
    string. *)
Theorem toDashCase_spec (str : jsstring) :
  toDashCase str = toLowerCase (hyphenate str).
Proof. apply toDashCase_hyphenate. Qed.

(** C5, as the program has it: for a non-empty name that is not of the
    camelCase form, [validate] returns an invalid result whose suggestion is
    [convertToCamelCase name]; the suggestion is non-empty exactly when the
    name has a character that is not a hyphen, an underscore or white space
    (the case conversions of the runtime never give the empty string for a
    one-character string). *)
Theorem suggestion_nonempty_iff (s : jsstring) :
  (forall c, toUpperCase [c] <> []) ->
  (forall c, toLowerCase [c] <> []) ->
  s <> [] -> ~ camelCase_name s ->
  valid (validate (Some s)) = false
  /\ suggestion (validate (Some s)) = Some (convertToCamelCase s)
  /\ (convertToCamelCase s <> [] <-> exists c, In c s /\ is_sep c = false).
Proof.
  intros Hup Hlo Hs Hn. rewrite validate_truthy by assumption.
  destruct (test re_camelCase s) eqn:Ht; [now apply camelCase_name_test in Ht |].
  cbn [valid suggestion]. repeat split.
  - intros Hne. apply not_all_sep.
    destruct (forallb is_sep s) eqn:Hall; [| reflexivity].
    exfalso. apply Hne. rewrite convertToCamelCase_runs.
    apply (proj2 (lower_leading_empty _ Hlo)).
    now apply (proj2 (proj1 (runs_empty s Hup))).
  - intros Hex Hempty. apply not_all_sep in Hex.
    rewrite convertToCamelCase_runs in Hempty.
    apply (proj1 (lower_leading_empty _ Hlo)) in Hempty.
    apply (proj1 (proj1 (runs_empty s Hup))) in Hempty. congruence.
Qed.

(** C9: for every string [x], applying [toDashCase] once more to
    [toDashCase (convertToCamelCase x)] gives it back. The runtime's
    lower-casing leaves no letter of [A-Z] and does nothing to a string it
    has already lower-cased. *)
Theorem toDashCase_idempotent_on_output (x : jsstring) :
  (forall s c, In c (toLowerCase s) -> is_upper c = false) ->
  (forall s, toLowerCase (toLowerCase s) = toLowerCase s) ->
  toDashCase (toDashCase (convertToCamelCase x)) = toDashCase (convertToCamelCase x).
Proof.
  intros Hno Hidem. rewrite !toDashCase_hyphenate.
  rewrite (hyphenate_no_upper (toLowerCase _)) by apply Hno.
  apply Hidem.
Qed.

(** C10: [convertToCamelCase] leaves every string of the camelCase form as
    it is. *)
Theorem convertToCamelCase_identity_on_valid (s : jsstring) :
  camelCase_name s -> convertToCamelCase s = s.
Proof. apply convertToCamelCase_camelCase. Qed.

(** [create] does return when the directory is absent and the four calls
    that change the disk succeed. *)
Lemma create_returns (this : ComponentGenerator) (w : World) (d1 d2 d3 d4 : FS) :
  let dir := path_join cwd (folderName this) in
  let logic := componentName this ++ lit ".component." ++ language this in
  let html := componentName this ++ lit ".component.html" in
  let style := componentName this ++ lit ".component.style.html" in
  existsSync (disk w) dir = false ->
  mkdirSync (disk w) dir = inl d1 ->
  writeFileSync d1 (path_join dir logic)
    (if jsstring_eqb (language this) (lit "ts")
     then generateTsContent this else generateJsContent this) = inl d2 ->
  writeFileSync d2 (path_join dir html) (generateHtmlContent this) = inl d3 ->
  writeFileSync d3 (path_join dir style) (generateStyleContent this) = inl d4 ->
  exists w', create this w = (Returned tt, w') /\ disk w' = d4.
Proof.
  intros dir logic html style He Hm H1 H2 H3.
  unfold create, try_catch, bind, fs_existsSync, fs_mkdirSync, fs_writeFileSync,
    console_call, process_exit, ret.
  cbn [files_of for_of name content disk console fs_calls].
  unfold bind, ret, fs_writeFileSync, console_call.
  cbn [disk console fs_calls name content].
  fold dir logic html style. rewrite He. cbn [disk console fs_calls].
  rewrite Hm. cbn [disk console fs_calls].
  rewrite H1. cbn [disk console fs_calls].
  rewrite H2. cbn [disk console fs_calls].
  rewrite H3. cbn [disk console fs_calls].
  eexists. split; reflexivity.
Qed.

(** C6: when the directory [toDashCase identifier] under the working
    directory already exists, [create] ends the process with exit status 1
    (not zero); the disk is as it was, and the only call made to [fs] is the
    existence check: no directory is made and no file is written. *)
Theorem create_refuses_existing_directory
  (identifier : jsstring) (language : option jsstring) (w : World) :
  existsSync (disk w) (path_join cwd (toDashCase identifier)) = true ->
  exists w',
    create (new_ComponentGenerator identifier language) w = (Exited 1, w')
    /\ (1 <> 0)%Z
    /\ disk w' = disk w
    /\ fs_calls w' = fs_calls w ++ [ExistsSync (path_join cwd (toDashCase identifier))].
Proof.
  intros H. unfold create, try_catch, bind, fs_existsSync, new_ComponentGenerator.
  cbn [folderName disk]. rewrite H.
  eexists. split; [reflexivity |]. repeat split. discriminate.
Qed.

(** C7: a run of [create] that returns has made the dash-case directory
    and written exactly three files into it, in this order: the logic file
    [<identifier>.component.<language>] (the TypeScript template when the
    language is [ts], the JavaScript one otherwise), then
    [<identifier>.component.html] holding [<div>{{title}}</div>], then
    [<identifier>.component.style.html] holding [<style></style>]; these
    are all the calls that change the disk. *)
Theorem create_writes_three_files
  (identifier lang : jsstring) (w w' : World) :
  create (new_ComponentGenerator identifier (Some lang)) w = (Returned tt, w') ->
  let this := new_ComponentGenerator identifier (Some lang) in
  let dir := path_join cwd (toDashCase identifier) in
  let logic := path_join dir (identifier ++ lit ".component." ++ lang) in
  let html := path_join dir (identifier ++ lit ".component.html") in
  let style := path_join dir (identifier ++ lit ".component.style.html") in
  let logic_content :=
    if jsstring_eqb lang (lit "ts")
    then generateTsContent this else generateJsContent this in
  fs_calls w' =
    fs_calls w ++
    [ ExistsSync dir; MkdirSync dir;
      WriteFileSync logic logic_content;
      WriteFileSync html (lit "<div>{{title}}</div>");
      WriteFileSync style (lit "<style></style>") ]
  /\ existsSync (disk w) dir = false
  /\ exists d1 d2 d3,
       mkdirSync (disk w) dir = inl d1
       /\ writeFileSync d1 logic logic_content = inl d2
       /\ writeFileSync d2 html (lit "<div>{{title}}</div>") = inl d3
       /\ writeFileSync d3 style (lit "<style></style>") = inl (disk w').
Proof.
  intros H this dir logic html style logic_content.
  unfold create, try_catch, bind, fs_existsSync, fs_mkdirSync, fs_writeFileSync,
    console_call, process_exit, ret in H.
  cbn [files_of for_of bind ret name content disk console fs_calls] in H.
  unfold bind, ret, fs_writeFileSync, console_call in H.
  cbn [disk console fs_calls folderName componentName language
       new_ComponentGenerator name content] in H.
  fold this dir logic html style logic_content in H.
  unfold generateHtmlContent, generateStyleContent in H.
  destruct (existsSync (disk w) dir) eqn:He;
    cbn [disk console fs_calls] in H; [discriminate |].
  destruct (mkdirSync (disk w) dir) as [d1 | e] eqn:Hm;
    cbn [disk console fs_calls] in H; [| discriminate].
  destruct (writeFileSync d1 logic logic_content) as [d2 | e] eqn:H1;
    cbn [disk console fs_calls] in H; [| discriminate].
  destruct (writeFileSync d2 html _) as [d3 | e] eqn:H2;
    cbn [disk console fs_calls] in H; [| discriminate].
  destruct (writeFileSync d3 style _) as [d4 | e] eqn:H3;
    cbn [disk console fs_calls] in H; [| discriminate].
  injection H as <-. cbn [disk fs_calls]. split; [| split].
  - rewrite <- !app_assoc. reflexivity.
  - reflexivity.
  - exists d1, d2, d3. repeat split; assumption.
Qed.

(** C8: a language flag whose value, lower-cased, is neither [ts] nor [js]
    (or that has no value) ends the process with exit status 1 before any
    call to [fs]: the disk is as it was. With no language flag on the command
    line the language is [ts]. *)
Theorem invalid_language_exits_before_files (args : list jsstring) (w : World) :
  (forall i,
     is_language_flag (nth_error args i) = true ->
     (forall v, nth_error args (i + 1) = Some v ->
                ~ equals_ignoring_case v (lit "ts")
                /\ ~ equals_ignoring_case v (lit "js")) ->
     exists w',
       main args w = (Exited 1, w') /\ (1 <> 0)%Z
       /\ disk w' = disk w /\ fs_calls w' = fs_calls w)
  /\ ((forall i, is_language_flag (nth_error args i) = false) ->
      exists name, parseArgs args w = (Returned (name, lit "ts"), w)).
Proof.
  split.
  - intros i Hflag Hbad.
    assert (Hi : (i < length args)%nat).
    { apply nth_error_Some. intros E. rewrite E in Hflag. discriminate. }
    destruct (parseArgs_for_invalid args i Hflag) with
      (n := length args) (i0 := 0%nat) (componentName := @None jsstring)
      (language := lit "ts") (w := w) as (w' & Hrun & Hd & Hc).
    + apply orb_false_iff. split; apply strict_eq_lowered;
        intros a Ha; now apply Hbad in Ha.
    + lia.
    + exists w'. split; [now apply main_parse_exit |].
      repeat split; [discriminate | assumption | assumption].
  - intros Hno. apply parseArgs_for_no_flag. assumption.
Qed.

(** * Further properties *)

(** ** [parseArgs] *)

Lemma strict_eq_true (v : option jsstring) (tag : jsstring) :
  strict_eq v tag = true -> v = Some tag.
Proof.
  destruct v as [a |]; cbn [strict_eq]; [| discriminate].
  intros H. apply jsstring_eqb_eq in H. now subst.
Qed.

Lemma parseArgs_for_outcome (args : list jsstring) :
  forall n i componentName language w,
    language = lit "ts" \/ language = lit "js" ->
    parseArgs_for args n i componentName language w
    = (Exited 1, logged w [invalid_language_line])
    \/ exists name lang,
         parseArgs_for args n i componentName language w = (Returned (name, lang), w)
         /\ (lang = lit "ts" \/ lang = lit "js").
Proof.
  induction n as [| n IH]; intros i cn lang w Hl; cbn [parseArgs_for].
  - right. exists cn, lang. split; [reflexivity | assumption].
  - destruct (is_language_flag (nth_error args i)); [| now apply IH].
    destruct (strict_eq (option_map toLowerCase (nth_error args (i + 1))) (lit "js"))
      eqn:Hjs; cbn [orb].
    + apply strict_eq_true in Hjs. rewrite Hjs. apply IH. now right.
    + destruct (strict_eq (option_map toLowerCase (nth_error args (i + 1))) (lit "ts"))
        eqn:Hts.
      * apply strict_eq_true in Hts. rewrite Hts. apply IH. now left.
      * left. reflexivity.
Qed.

Lemma parseArgs_cases (args : list jsstring) (w : World) :
  parseArgs args w = (Exited 1, logged w [invalid_language_line])
  \/ exists name lang,
       parseArgs args w = (Returned (name, lang), w)
       /\ (lang = lit "ts" \/ lang = lit "js").
Proof. apply parseArgs_for_outcome. now left. Qed.

(** X1: [parseArgs] has two outcomes only. Either it stops the process with
    exit status 1 after one error line on the console, or it returns, writes
    nothing on the console, and the language it returns is exactly [ts] or
    [js]. It never throws and never calls [fs]. *)
Theorem parseArgs_outcome (args : list jsstring) (w : World) :
  parseArgs args w = (Exited 1, logged w [invalid_language_line])
  \/ exists name lang,
       parseArgs args w = (Returned (name, lang), w)
       /\ (lang = lit "ts" \/ lang = lit "js").
Proof. apply parseArgs_cases. Qed.

Lemma parseArgs_for_name_kept (args : list jsstring) :
  forall n i componentName language w name lang w',
    (forall j, (i <= j < i + n)%nat -> is_name_flag (nth_error args j) = false) ->
    parseArgs_for args n i componentName language w = (Returned (name, lang), w') ->
    name = componentName.
Proof.
  induction n as [| n IH]; intros i cn l w name lang w' Hno; cbn [parseArgs_for].
  - intros H. now inversion H.
  - rewrite (Hno i) by lia.
    assert (Hno' : forall j, (S i <= j < S i + n)%nat ->
                             is_name_flag (nth_error args j) = false).
    { intros j Hj. apply Hno. lia. }
    destruct (is_language_flag (nth_error args i)).
    + destruct (_ || _); [now apply IH | discriminate].
    + now apply IH.
Qed.

Lemma parseArgs_for_last_name (args : list jsstring) (k : nat) :
  is_name_flag (nth_error args k) = true ->
  forall n i componentName language w name lang w',
    (i <= k < i + n)%nat ->
    (forall j, (k < j < i + n)%nat -> is_name_flag (nth_error args j) = false) ->
    parseArgs_for args n i componentName language w = (Returned (name, lang), w') ->
    name = nth_error args (k + 1).
Proof.
  intros Hk. induction n as [| n IH]; intros i cn l w name lang w' Hi Hno; [lia |].
  cbn [parseArgs_for].
  destruct (Nat.eq_dec i k) as [-> | Hne].
  - rewrite Hk.
    assert (Hno' : forall j, (S k <= j < S k + n)%nat ->
                             is_name_flag (nth_error args j) = false).
    { intros j Hj. apply Hno. lia. }
    destruct (is_language_flag (nth_error args k)).
    + destruct (_ || _); [| discriminate].
      intros H. now apply parseArgs_for_name_kept in H.
    + intros H. now apply parseArgs_for_name_kept in H.
  - assert (Hi' : (S i <= k < S i + n)%nat) by lia.
    assert (Hno' : forall j, (k < j < S i + n)%nat ->
                             is_name_flag (nth_error args j) = false).
    { intros j Hj. apply Hno. lia. }
    destruct (is_language_flag (nth_error args i)).
    + destruct (_ || _); [| discriminate]. now apply IH.
    + now apply IH.
Qed.

Lemma flag_in_bounds (f : option jsstring -> bool) (args : list jsstring) (k : nat) :
  f None = false -> f (nth_error args k) = true -> (k < length args)%nat.
Proof.
  intros Hf H. apply nth_error_Some. intros E. rewrite E in H. congruence.
Qed.

Lemma parseArgs_last_name
  (args : list jsstring) (k : nat) (w w' : World)
  (name : option jsstring) (lang : jsstring) :
  is_name_flag (nth_error args k) = true ->
  (forall j, (k < j)%nat -> is_name_flag (nth_error args j) = false) ->
  parseArgs args w = (Returned (name, lang), w') ->
  name = nth_error args (k + 1).
Proof.
  intros Hk Hno. unfold parseArgs.
  apply (parseArgs_for_last_name args k Hk).
  - pose proof (flag_in_bounds is_name_flag args k eq_refl Hk). lia.
  - intros j Hj. apply Hno. lia.
Qed.

(** X2: when [parseArgs] returns, the component name is the argument after
    the last [-n] or [--name]; it is [undefined] when that flag is the last
    argument, whatever an earlier flag gave. *)
Theorem parseArgs_last_name_wins
  (args : list jsstring) (k : nat) (w w' : World)
  (name : option jsstring) (lang : jsstring) :
  is_name_flag (nth_error args k) = true ->
  (forall j, (k < j)%nat -> is_name_flag (nth_error args j) = false) ->
  parseArgs args w = (Returned (name, lang), w') ->
  name = nth_error args (k + 1).
Proof. apply parseArgs_last_name. Qed.

Lemma parseArgs_for_language_kept (args : list jsstring) :
  forall n i componentName language w name lang w',
    (forall j, (i <= j < i + n)%nat -> is_language_flag (nth_error args j) = false) ->
    parseArgs_for args n i componentName language w = (Returned (name, lang), w') ->
    lang = language.
Proof.
  induction n as [| n IH]; intros i cn l w name lang w' Hno; cbn [parseArgs_for].
  - intros H. now inversion H.
  - rewrite (Hno i) by lia. apply IH. intros j Hj. apply Hno. lia.
Qed.

Lemma parseArgs_for_last_language (args : list jsstring) (k : nat) :
  is_language_flag (nth_error args k) = true ->
  forall n i componentName language w name lang w',
    (i <= k < i + n)%nat ->
    (forall j, (k < j < i + n)%nat -> is_language_flag (nth_error args j) = false) ->
    parseArgs_for args n i componentName language w = (Returned (name, lang), w') ->
    option_map toLowerCase (nth_error args (k + 1)) = Some lang.
Proof.
  intros Hk. induction n as [| n IH]; intros i cn l w name lang w' Hi Hno; [lia |].
  cbn [parseArgs_for].
  destruct (Nat.eq_dec i k) as [-> | Hne].
  - rewrite Hk.
    assert (Hno' : forall j, (S k <= j < S k + n)%nat ->
                             is_language_flag (nth_error args j) = false).
    { intros j Hj. apply Hno. lia. }
    destruct (strict_eq (option_map toLowerCase (nth_error args (k + 1))) (lit "js"))
      eqn:Hjs; cbn [orb].
    + apply strict_eq_true in Hjs. rewrite Hjs. cbn [toString].
      intros H. apply parseArgs_for_language_kept in H; [now subst | assumption].
    + destruct (strict_eq (option_map toLowerCase (nth_error args (k + 1))) (lit "ts"))
        eqn:Hts; [| discriminate].
      apply strict_eq_true in Hts. rewrite Hts. cbn [toString].
      intros H. apply parseArgs_for_language_kept in H; [now subst | assumption].
  - assert (Hi' : (S i <= k < S i + n)%nat) by lia.
    assert (Hno' : forall j, (k < j < S i + n)%nat ->
                             is_language_flag (nth_error args j) = false).
    { intros j Hj. apply Hno. lia. }
    destruct (is_language_flag (nth_error args i)).
    + destruct (_ || _); [| discriminate]. now apply IH.
    + now apply IH.
Qed.

(** X3: when [parseArgs] returns, the language is the lower-cased argument
    after the last [-l] or [--language]: a later flag overrides an earlier
    one, and the value is accepted in any letter case. *)
Theorem parseArgs_last_language_wins
  (args : list jsstring) (k : nat) (w w' : World)
  (name : option jsstring) (lang : jsstring) :
  is_language_flag (nth_error args k) = true ->
  (forall j, (k < j)%nat -> is_language_flag (nth_error args j) = false) ->
  parseArgs args w = (Returned (name, lang), w') ->
  exists v, nth_error args (k + 1) = Some v /\ lang = toLowerCase v.
Proof.
  intros Hk Hno Hrun. unfold parseArgs in Hrun.
  apply (parseArgs_for_last_language args k Hk) in Hrun.
  - destruct (nth_error args (k + 1)) as [v |]; [| discriminate].
    exists v. split; [reflexivity |]. cbn [option_map] in Hrun. congruence.
  - pose proof (flag_in_bounds is_language_flag args k eq_refl Hk). lia.
  - intros j Hj. apply Hno. lia.
Qed.

(** ** [create] *)

(** Every run of [create] is one of the six of [create_result]. *)
Lemma create_cases (this : ComponentGenerator) (w : World) :
  create_result this w (create this w).
Proof.
  unfold create, try_catch, bind, fs_existsSync, fs_mkdirSync, fs_writeFileSync,
    console_call, process_exit, ret.
  cbn [files_of for_of name content disk console fs_calls].
  unfold bind, ret, fs_writeFileSync, console_call.
  cbn [disk console fs_calls name content].
  change (path_join cwd (folderName this)) with (target this).
  destruct (existsSync (disk w) (target this)) eqn:He; cbn [disk console fs_calls].
  { replace (mkWorld _ _ _) with (after this w (disk w) [directory_exists_line this] 1)
      by reflexivity.
    now constructor. }
  destruct (mkdirSync (disk w) (target this)) as [d1 | e] eqn:Hm;
    cbn [disk console fs_calls].
  2:{ replace (mkWorld _ _ _) with (after this w (disk w) [failure_line e] 2)
        by (unfold after; cbn [planned_calls firstn]; now rewrite <- !app_assoc).
      now constructor. }
  destruct (writeFileSync d1 _ _) as [d2 | e] eqn:H1 in |- *;
    cbn [disk console fs_calls].
  2:{ replace (mkWorld _ _ _)
        with (after this w d1
                [created_directory_line this; generating_line; failure_line e] 3)
        by (unfold after; cbn [planned_calls firstn files_of map name content];
            now rewrite <- !app_assoc).
      now apply first_write_throws. }
  destruct (writeFileSync d2 _ _) as [d3 | e] eqn:H2 in |- *;
    cbn [disk console fs_calls].
  2:{ replace (mkWorld _ _ _)
        with (after this w d2
                [created_directory_line this; generating_line;
                 created_line (file_at 0 this); failure_line e] 4)
        by (unfold after; cbn [planned_calls firstn files_of map name content];
            now rewrite <- !app_assoc).
      now apply second_write_throws with (d1 := d1). }
  destruct (writeFileSync d3 _ _) as [d4 | e] eqn:H3 in |- *;
    cbn [disk console fs_calls].
  - replace (mkWorld _ _ _)
      with (after this w d4
              [created_directory_line this; generating_line;
               created_line (file_at 0 this); created_line (file_at 1 this);
               created_line (file_at 2 this)] 5)
      by (unfold after; cbn [planned_calls firstn files_of map name content];
          now rewrite <- !app_assoc).
    now apply all_written with (d1 := d1) (d2 := d2) (d3 := d3).
  - replace (mkWorld _ _ _)
      with (after this w d3
              [created_directory_line this; generating_line;
               created_line (file_at 0 this); created_line (file_at 1 this);
               failure_line e] 5)
      by (unfold after; cbn [planned_calls firstn files_of map name content];
          now rewrite <- !app_assoc).
    now apply third_write_throws with (d1 := d1) (d2 := d2).
Qed.

Lemma create_outcome (this : ComponentGenerator) (w : World) :
  fst (create this w) = Returned tt \/ fst (create this w) = Exited 1.
Proof.
  destruct (create_cases this w); cbn [fst]; [right | right | right | right | right | left];
    reflexivity.
Qed.

(** X4: [create] never throws: it returns or it stops the process with exit
    status 1. The calls it makes to [fs] are the first [k] of the five it
    plans (existence check, [mkdirSync], three [writeFileSync] in the order
    of [files]), with [k] at least 1, and it returns only after all five. *)
Theorem create_calls_prefix (this : ComponentGenerator) (w : World) :
  (fst (create this w) = Returned tt \/ fst (create this w) = Exited 1)
  /\ exists k,
       (1 <= k <= 5)%nat
       /\ fs_calls (snd (create this w)) = fs_calls w ++ firstn k (planned_calls this)
       /\ (fst (create this w) = Returned tt -> k = 5%nat).
Proof.
  destruct (create_cases this w); cbn [fst snd after fs_calls].
  - split; [now right |]. exists 1%nat. repeat split; (lia || discriminate).
  - split; [now right |]. exists 2%nat. repeat split; (lia || discriminate).
  - split; [now right |]. exists 3%nat. repeat split; (lia || discriminate).
  - split; [now right |]. exists 4%nat. repeat split; (lia || discriminate).
  - split; [now right |]. exists 5%nat. repeat split; lia.
  - split; [now left |]. exists 5%nat. repeat split; lia.
Qed.

(** X5: when the directory is absent and [mkdirSync] throws, [create] prints
    the message of the exception and stops the process with exit status 1;
    the disk is as it was and no file is written. *)
Theorem create_mkdir_failure (this : ComponentGenerator) (w : World) (e : jsstring) :
  existsSync (disk w) (path_join cwd (folderName this)) = false ->
  mkdirSync (disk w) (path_join cwd (folderName this)) = inr e ->
  exists w',
    create this w = (Exited 1, w')
    /\ disk w' = disk w
    /\ console w' = console w ++ [failure_line e]
    /\ fs_calls w' =
       fs_calls w ++ [ExistsSync (path_join cwd (folderName this));
                      MkdirSync (path_join cwd (folderName this))].
Proof.
  intros He Hm. fold (target this) in He, Hm.
  destruct (create_cases this w); try same_step; try same_step.
  eexists. split; [reflexivity |]. repeat split.
Qed.


Lemma create_same_files (this : ComponentGenerator) (w1 w2 : World) :
  same_files w1 w2 ->
  fst (create this w1) = fst (create this w2)
  /\ same_files (snd (create this w1)) (snd (create this w2)).
Proof.
  intros [Hd Hc].
  destruct (create_cases this w1); destruct (create_cases this w2);
    rewrite ?Hd in *; repeat same_step;
    cbn [fst snd]; unfold same_files, after; cbn [disk fs_calls];
    rewrite ?Hd, ?Hc; repeat split; reflexivity.
Qed.

(** ** [main] *)

Lemma main_no_name (args : list jsstring) (w : World)
  (name : option jsstring) (lang : jsstring) :
  parseArgs args w = (Returned (name, lang), w) ->
  truthy name = false ->
  main args w = (Exited 1, logged w [name_required_line; example_line]).
Proof.
  intros Hp Ht. unfold main, try_catch, bind at 1. rewrite Hp.
  cbn [fst snd]. rewrite Ht. cbn [negb].
  unfold bind, console_call, process_exit. cbn [disk console fs_calls].
  unfold logged. now rewrite <- app_assoc.
Qed.

Lemma main_with_name (args : list jsstring) (w : World)
  (s : jsstring) (lang : jsstring) :
  parseArgs args w = (Returned (Some s, lang), w) ->
  s <> [] ->
  exists w1 lines,
    same_files w w1
    /\ main args w =
       match effective_name s with
       | [] => (Exited 1, w1)
       | _ :: _ =>
           let r := create (new_ComponentGenerator (effective_name s) (Some lang)) w1 in
           (fst r,
            match fst r with
            | Returned _ => logged (snd r) lines
            | _ => snd r
            end)
       end.
Proof.
  intros Hp Hs. unfold main, try_catch, bind at 1. rewrite Hp.
  cbn [fst snd]. destruct s as [| c tl]; [congruence |]. cbn [truthy negb].
  rewrite validate_truthy by discriminate. unfold effective_name.
  destruct (test re_camelCase (c :: tl)) eqn:Ht; cbn [valid negb suggestion toString].
  - unfold bind, console_call, process_exit, ret. cbn [disk console fs_calls].
    match goal with |- context [create ?g ?W] => exists W end.
    eexists. split; [split; reflexivity |].
    match goal with |- context [create ?g ?W] => destruct (create_cases g W) end;
      cbn [fst snd]; unfold logged, after; cbn [disk console fs_calls];
      rewrite <- ?app_assoc; reflexivity.
  - destruct (convertToCamelCase (c :: tl)) as [| c' tl'] eqn:Hc; cbn [truthy].
    + unfold bind, console_call, process_exit, ret. cbn [disk console fs_calls].
      eexists. exists []. split; [| reflexivity]. split; reflexivity.
    + unfold bind, console_call, process_exit, ret. cbn [disk console fs_calls].
      match goal with |- context [create ?g ?W] => exists W end.
      eexists. split; [split; reflexivity |].
      match goal with |- context [create ?g ?W] => destruct (create_cases g W) end;
        cbn [fst snd]; unfold logged, after; cbn [disk console fs_calls];
        rewrite <- ?app_assoc; reflexivity.
Qed.

Lemma same_files_logged (w : World) (lines : list (ConsoleMethod * jsstring)) :
  same_files w (logged w lines).
Proof. split; reflexivity. Qed.

Lemma runs_all_sep (s : jsstring) :
  forallb is_sep s = true -> camel_runs s = [] /\ after_run s = [].
Proof.
  induction s as [| c tl IH]; cbn [forallb camel_runs after_run]; [now split |].
  destruct (is_sep c); cbn [andb]; [| discriminate].
  intros H. destruct (IH H) as [_ Ha]. now split.
Qed.

Lemma effective_name_all_sep (s : jsstring) :
  forallb is_sep s = true -> effective_name s = [].
Proof.
  intros H. unfold effective_name. rewrite test_camelCase.
  destruct s as [| c tl]; [apply convertToCamelCase_runs |].
  cbn [forallb] in H. apply andb_true_iff in H. destruct H as [Hc Htl].
  assert (Hl : is_lower c = false).
  { destruct (is_lower c) eqn:E; [| reflexivity].
    assert (Ha : is_alnum c = true) by (unfold is_alnum; now rewrite E).
    apply alnum_not_sep in Ha. rewrite Ha in Hc. discriminate Hc. }
  rewrite Hl. cbn [andb]. rewrite convertToCamelCase_runs.
  assert (Hr : camel_runs (c :: tl) = []).
  { apply runs_all_sep. cbn [forallb]. now rewrite Hc, Htl. }
  now rewrite Hr.
Qed.

Lemma main_unusable_name (args : list jsstring) (w : World)
  (name : option jsstring) (lang : jsstring) :
  parseArgs args w = (Returned (name, lang), w) ->
  (forall s, name = Some s -> forallb is_sep s = true) ->
  exists w', main args w = (Exited 1, w') /\ same_files w w'.
Proof.
  intros Hp Hn. destruct (truthy name) eqn:Ht.
  - destruct name as [[| c tl] |]; try discriminate Ht.
    destruct (main_with_name args w (c :: tl) lang Hp) as (w1 & lines & Hw & Hm);
      [discriminate |].
    rewrite (effective_name_all_sep (c :: tl) (Hn _ eq_refl)) in Hm.
    now exists w1.
  - rewrite (main_no_name args w name lang Hp Ht).
    eexists. split; [reflexivity | apply same_files_logged].
Qed.

(** X7: without a [-n] or [--name] argument [main] stops the process with
    exit status 1 and has made no call to [fs]: the disk is as it was. *)
Theorem main_missing_name (args : list jsstring) (w : World) :
  (forall j, is_name_flag (nth_error args j) = false) ->
  exists w',
    main args w = (Exited 1, w') /\ disk w' = disk w /\ fs_calls w' = fs_calls w.
Proof.
  intros Hno. destruct (parseArgs_cases args w) as [He | (name & lang & Hp & _)].
  - eexists. split; [apply main_parse_exit, He |]. split; reflexivity.
  - assert (Hn : name = None).
    { unfold parseArgs in Hp. apply parseArgs_for_name_kept in Hp; [assumption |].
      intros j _. apply Hno. }
    destruct (main_unusable_name args w name lang Hp) as (w' & Hm & Hd & Hc).
    + intros s Hs. congruence.
    + exists w'. now repeat split.
Qed.

(** X8: when the last [-n] or [--name] is the final argument, or is followed
    by the empty string or by a name made only of hyphens, underscores and
    white space, [main] stops the process with exit status 1 and has made no
    call to [fs], whatever an earlier name flag gave. *)
Theorem main_unusable_last_name (args : list jsstring) (k : nat) (w : World) :
  is_name_flag (nth_error args k) = true ->
  (forall j, (k < j)%nat -> is_name_flag (nth_error args j) = false) ->
  (forall s, nth_error args (k + 1) = Some s -> forallb is_sep s = true) ->
  exists w',
    main args w = (Exited 1, w') /\ disk w' = disk w /\ fs_calls w' = fs_calls w.
Proof.
  intros Hk Hno Hv.
  destruct (parseArgs_cases args w) as [He | (name & lang & Hp & _)].
  - eexists. split; [apply main_parse_exit, He |]. split; reflexivity.
  - assert (Hn : name = nth_error args (k + 1)).
    { now apply (parseArgs_last_name args k w w name lang). }
    destruct (main_unusable_name args w name lang Hp) as (w' & Hm & Hd & Hc).
    + intros s Hs. apply Hv. congruence.
    + exists w'. now repeat split.
Qed.

(** X9: [main] never throws. It returns, or it stops the process with exit
    status 1. *)
Theorem main_exit_status (args : list jsstring) (w : World) :
  fst (main args w) = Returned tt \/ fst (main args w) = Exited 1.
Proof.
  destruct (parseArgs_cases args w) as [He | (name & lang & Hp & _)].
  - right. now rewrite (main_parse_exit args w _ He).
  - destruct (truthy name) eqn:Ht.
    + destruct name as [[| c tl] |]; try discriminate Ht.
      destruct (main_with_name args w (c :: tl) lang Hp) as (w1 & lines & _ & Hm);
        [discriminate |].
      rewrite Hm. destruct (effective_name (c :: tl)); [now right |].
      apply create_outcome.
    + right. now rewrite (main_no_name args w name lang Hp Ht).
Qed.

(** X10: with a usable name, what [main] does to the file system is what
    [create] does for the name it settles on (the requested name when it is
    of the camelCase form, the suggestion otherwise): the same outcome, the
    same disk and the same calls to [fs]. *)
Theorem main_effect_is_create
  (args : list jsstring) (w : World) (s lang : jsstring) :
  fst (parseArgs args w) = Returned (Some s, lang) ->
  effective_name s <> [] ->
  let r := create (new_ComponentGenerator (effective_name s) (Some lang)) w in
  fst (main args w) = fst r
  /\ disk (snd (main args w)) = disk (snd r)
  /\ fs_calls (snd (main args w)) = fs_calls (snd r).
Proof.
  intros Hp He r.
  assert (Hp' : parseArgs args w = (Returned (Some s, lang), w)).
  { destruct (parseArgs_cases args w) as [Hx | (name & l & Hr & _)].
    - rewrite Hx in Hp. discriminate Hp.
    - rewrite Hr in Hp |- *. cbn [fst] in Hp. now inversion Hp. }
  assert (Hs : s <> []).
  { intros ->. apply He. reflexivity. }
  destruct (main_with_name args w s lang Hp' Hs) as (w1 & lines & Hw & Hm).
  rewrite Hm. destruct (effective_name s) as [| c tl] eqn:En; [congruence |].
  destruct (create_same_files (new_ComponentGenerator (c :: tl) (Some lang)) w w1 Hw)
    as (Hf & Hd & Hc).
  subst r. cbn [fst snd]. rewrite Hf. split; [reflexivity |].
  destruct (fst (create _ w1)); cbn [logged disk fs_calls]; now split.
Qed.

(** ** The files of [create] *)

(** X11: for the two languages [parseArgs] lets through, the three files of
    [create] have three different names, so no write replaces an earlier
    one. *)
Theorem files_have_distinct_names (this : ComponentGenerator) :
  language this = lit "ts" \/ language this = lit "js" ->
  NoDup (map name (files_of this)).
Proof.
  intros Hl. cbn [files_of map name].
  repeat constructor; cbn [In].
  - intros [H | [H | []]]; apply app_inv_head in H;
      destruct Hl as [Hl | Hl]; rewrite Hl in H; discriminate H.
  - intros [H | []]. apply app_inv_head in H. discriminate H.
  - intros [].
Qed.












(** ** More on the two conversions *)

Ltac class_facts :=
  unfold ascii_upper, ascii_lower in *;
  unfold is_letter, is_alnum, is_lower, is_upper, is_digit, is_ascii, in_range in *;
  repeat match goal with
         | |- context [if ?b then _ else _] => destruct b eqn:?
         end;
  try discriminate;
  rewrite ?orb_true_iff, ?andb_true_iff, ?orb_false_iff, ?andb_false_iff,
    ?N.leb_le, ?N.leb_gt, ?N.ltb_lt, ?N.eqb_eq in *;
  lia.

Lemma alnum_ascii (c : cu) : is_alnum c = true -> is_ascii c = true.
Proof. intros H. class_facts. Qed.

Lemma ascii_lower_fixes (c : cu) : is_upper c = false -> ascii_lower c = c.
Proof. intros H. unfold ascii_lower. now rewrite H. Qed.

Lemma ascii_lower_of_upper (c : cu) :
  is_upper c = true -> is_lower (ascii_lower c) = true.
Proof. intros H. class_facts. Qed.

Lemma ascii_upper_lower (c : cu) :
  is_upper c = true -> ascii_upper (ascii_lower c) = c.
Proof. intros H. class_facts. Qed.

Lemma ascii_upper_alnum (c : cu) :
  is_alnum c = true -> is_alnum (ascii_upper c) = true.
Proof. intros H. class_facts. Qed.

Lemma ascii_upper_letter (c : cu) :
  is_letter c = true -> is_upper (ascii_upper c) = true.
Proof. intros H. class_facts. Qed.

Lemma letter_not_upper (c : cu) :
  is_letter c = true -> is_upper c = false -> is_lower c = true.
Proof. unfold is_letter. intros H Hu. rewrite Hu in H. now rewrite orb_false_r in H. Qed.

Lemma lower_alnum (c : cu) : is_lower c = true -> is_alnum c = true.
Proof. intros H. unfold is_alnum. now rewrite H. Qed.

Lemma ascii_lower_folder (c : cu) :
  is_alnum c = true \/ c = 45 ->
  is_lower (ascii_lower c) || is_digit (ascii_lower c) || (ascii_lower c =? 45) = true.
Proof. intros H. class_facts. Qed.

Lemma upper_one (c : cu) :
  uppers_ascii toUpperCase -> is_alnum c = true -> toUpperCase [c] = [ascii_upper c].
Proof.
  intros Hu Hc. apply Hu. cbn [forallb]. now rewrite (alnum_ascii c Hc).
Qed.

Lemma lower_one (c : cu) :
  lowers_ascii toLowerCase -> is_alnum c = true -> toLowerCase [c] = [ascii_lower c].
Proof.
  intros Hl Hc. apply Hl. cbn [forallb]. now rewrite (alnum_ascii c Hc).
Qed.

Lemma runs_no_sep (s : jsstring) :
  (forall d, is_sep d = false -> Forall (fun c => is_sep c = false) (toUpperCase [d])) ->
  Forall (fun c => is_sep c = false) (camel_runs s)
  /\ Forall (fun c => is_sep c = false) (after_run s).
Proof.
  intros Hup. induction s as [| c tl [IH1 IH2]]; cbn [camel_runs after_run].
  - split; constructor.
  - destruct (is_sep c) eqn:Hc; [now split |]. split.
    + now constructor.
    + apply Forall_app. split; [now apply Hup | assumption].
Qed.

(** X13: the suggestion has no separator left. Given that the runtime's
    [toUpperCase] of a character that is not a separator, and its
    [toLowerCase] of a letter of [A-Z], contain no hyphen, underscore or
    white space, neither does [convertToCamelCase s], for every [s]. *)
Theorem convertToCamelCase_no_separator (s : jsstring) :
  (forall d, is_sep d = false -> Forall (fun c => is_sep c = false) (toUpperCase [d])) ->
  (forall d, is_upper d = true -> Forall (fun c => is_sep c = false) (toLowerCase [d])) ->
  Forall (fun c => is_sep c = false) (convertToCamelCase s).
Proof.
  intros Hup Hlo. rewrite convertToCamelCase_runs.
  destruct (runs_no_sep s Hup) as [H _].
  destruct (camel_runs s) as [| c tl]; cbn [lower_leading]; [constructor |].
  destruct (is_upper c) eqn:Hc; [| assumption].
  apply Forall_app. split; [now apply Hlo | now inversion H].
Qed.

Lemma runs_alnum (s : jsstring) :
  uppers_ascii toUpperCase ->
  forallb (fun c => is_alnum c || is_sep c) s = true ->
  Forall (fun c => is_alnum c = true) (camel_runs s)
  /\ Forall (fun c => is_alnum c = true) (after_run s).
Proof.
  intros Hu. induction s as [| c tl IH]; cbn [forallb camel_runs after_run].
  - intros _. split; constructor.
  - intros H. apply andb_true_iff in H. destruct H as [Hc Htl].
    destruct (IH Htl) as [IH1 IH2].
    destruct (is_sep c) eqn:Hs; [now split |].
    rewrite orb_false_r in Hc. rewrite (upper_one c Hu Hc). split.
    + now constructor.
    + constructor; [now apply ascii_upper_alnum | assumption].
Qed.

Lemma runs_head (s : jsstring) (c : cu) :
  uppers_ascii toUpperCase ->
  forallb (fun c => is_alnum c || is_sep c) s = true ->
  find (fun d => negb (is_sep d)) s = Some c ->
  (exists t, after_run s = ascii_upper c :: t)
  /\ (exists h t, camel_runs s = h :: t /\ (h = c \/ h = ascii_upper c)).
Proof.
  intros Hu. induction s as [| d tl IH]; cbn [forallb find camel_runs after_run];
    [discriminate |].
  intros H Hf. apply andb_true_iff in H. destruct H as [Hd Htl].
  destruct (is_sep d) eqn:Hs; cbn [negb] in Hf.
  - destruct (IH Htl Hf) as [(t & Ht) _]. split; [now exists t |].
    exists (ascii_upper c), t. split; [assumption | now right].
  - inversion Hf; subst d. rewrite orb_false_r in Hd.
    rewrite (upper_one c Hu Hd). split.
    + now exists (camel_runs tl).
    + exists c, (camel_runs tl). split; [reflexivity | now left].
Qed.

(** X14: the suggestion for a name made of ASCII letters, digits and
    separators whose first character that is not a separator is a letter is
    of the camelCase form, so [validate] accepts it. The case conversions of
    the runtime are taken to act on ASCII strings letter by letter. *)
Theorem suggestion_is_camelCase (s : jsstring) (c : cu) :
  uppers_ascii toUpperCase ->
  lowers_ascii toLowerCase ->
  forallb (fun d => is_alnum d || is_sep d) s = true ->
  find (fun d => negb (is_sep d)) s = Some c ->
  is_letter c = true ->
  camelCase_name (convertToCamelCase s)
  /\ valid (validate (Some (convertToCamelCase s))) = true.
Proof.
  intros Hu Hl Hs Hf Hc.
  assert (Hname : camelCase_name (convertToCamelCase s)).
  { rewrite convertToCamelCase_runs.
    destruct (runs_alnum s Hu Hs) as [Ha _].
    destruct (runs_head s c Hu Hs Hf) as [_ (h & t & Hr & Hh)].
    rewrite Hr in Ha |- *. inversion Ha as [| ? ? Hha Hta]; subst.
    cbn [lower_leading]. destruct (is_upper h) eqn:Hup.
    - rewrite (lower_one h Hl Hha). cbn [app].
      exists (ascii_lower h), t. repeat split; [| assumption].
      now apply ascii_lower_of_upper.
    - exists h, t. repeat split; [| assumption].
      destruct Hh as [-> | ->].
      + now apply letter_not_upper.
      + rewrite (ascii_upper_letter c Hc) in Hup. discriminate Hup. }
  split; [assumption |].
  rewrite validate_truthy.
  - apply camelCase_name_test in Hname. now rewrite Hname.
  - destruct Hname as (h & t & -> & _). discriminate.
Qed.

Lemma hyphenate_head (c : cu) (tl : jsstring) :
  exists more, hyphenate (c :: tl) = c :: more.
Proof.
  destruct tl as [| c2 r]; [now exists [] |].
  rewrite hyphenate_pair. destruct (is_lower c && is_upper c2); eexists; reflexivity.
Qed.

Lemma hyphenate_alnum (s : jsstring) :
  Forall (fun c => is_alnum c = true) s ->
  Forall (fun c => is_alnum c = true \/ c = 45) (hyphenate s).
Proof.
  induction 1 as [| c1 tl Hc Htl IH]; [constructor |].
  destruct tl as [| c2 r]; [cbn [hyphenate]; constructor; [now left | constructor] |].
  rewrite hyphenate_pair. destruct (is_lower c1 && is_upper c2).
  - constructor; [now left |]. constructor; [now right | assumption].
  - constructor; [now left | assumption].
Qed.

Lemma hyphenate_ascii (s : jsstring) :
  Forall (fun c => is_alnum c = true) s -> forallb is_ascii (hyphenate s) = true.
Proof.
  intros H. apply forallb_forall. intros c Hc.
  apply hyphenate_alnum in H. rewrite Forall_forall in H.
  destruct (H c Hc) as [Ha | ->]; [now apply alnum_ascii | reflexivity].
Qed.

Lemma camelCase_name_alnum (s : jsstring) :
  camelCase_name s -> Forall (fun c => is_alnum c = true) s.
Proof.
  intros (c & tl & -> & Hc & Htl). constructor; [now apply lower_alnum | assumption].
Qed.

Lemma toDashCase_ascii (s : jsstring) :
  lowers_ascii toLowerCase ->
  Forall (fun c => is_alnum c = true) s ->
  toDashCase s = map ascii_lower (hyphenate s).
Proof.
  intros Hl Hs. rewrite toDashCase_hyphenate. apply Hl. now apply hyphenate_ascii.
Qed.

(** X15: the folder name of a camelCase identifier starts with the
    identifier's first letter and has only lowercase letters, digits and
    hyphens after it: no uppercase letter, no slash, no dot. The runtime's
    [toLowerCase] is taken to act on ASCII strings letter by letter. *)
Theorem folder_name_charset (s : jsstring) :
  lowers_ascii toLowerCase ->
  camelCase_name s ->
  exists c tl,
    toDashCase s = c :: tl
    /\ hd_error s = Some c
    /\ is_lower c = true
    /\ forallb (fun d => is_lower d || is_digit d || (d =? 45)) tl = true.
Proof.
  intros Hl Hs. rewrite (toDashCase_ascii s Hl (camelCase_name_alnum s Hs)).
  pose proof (hyphenate_alnum s (camelCase_name_alnum s Hs)) as Hh.
  destruct Hs as (c & tl & -> & Hc & _).
  destruct (hyphenate_head c tl) as (more & Hm). rewrite Hm in Hh |- *.
  cbn [map]. rewrite (ascii_lower_fixes c (lower_not_upper c Hc)).
  exists c, (map ascii_lower more). repeat split; [assumption |].
  inversion Hh as [| ? ? _ Hmore]; subst.
  apply forallb_forall. intros d Hd. apply in_map_iff in Hd.
  destruct Hd as (x & <- & Hx). apply ascii_lower_folder.
  rewrite Forall_forall in Hmore. now apply Hmore.
Qed.

Lemma map_lower_hyphenate_cons (c : cu) (tl : jsstring) :
  is_lower c = false ->
  map ascii_lower (hyphenate (c :: tl)) = ascii_lower c :: map ascii_lower (hyphenate tl).
Proof. intros H. now rewrite hyphenate_not_lower. Qed.

(** Through the folder name and back, on the part of a name that follows
    its first character. *)
Lemma roundtrip_runs (s : jsstring) :
  uppers_ascii toUpperCase ->
  Forall (fun c => is_alnum c = true) s ->
  (match s with [] => True | c :: _ => is_upper c = false end ->
   uppers_follow_lowers false s = true ->
   camel_runs (map ascii_lower (hyphenate s)) = s)
  /\ (match s with [] => False | c :: _ => is_upper c = true end ->
      uppers_follow_lowers true s = true ->
      after_run (map ascii_lower (hyphenate s)) = s).
Proof.
  intros Hu. induction 1 as [| c1 tl Hc1 Htl [IH1 IH2]]; [split; [reflexivity | intros []] |].
  pose proof (alnum_not_sep c1 Hc1) as Hs1. split.
  - intros Hup Hf. cbn [uppers_follow_lowers] in Hf.
    rewrite Hup in Hf. cbn [negb orb andb] in Hf.
    destruct tl as [| c2 r].
    + cbn [hyphenate map]. rewrite (ascii_lower_fixes c1 Hup).
      cbn [camel_runs]. now rewrite Hs1.
    + rewrite hyphenate_pair. destruct (is_lower c1) eqn:Hl1; cbn [andb].
      * destruct (is_upper c2) eqn:Hu2.
        -- cbn [map]. rewrite (ascii_lower_fixes c1 Hup).
           change (ascii_lower 45) with 45.
           cbn [camel_runs]. rewrite Hs1. change (is_sep 45) with true.
           cbv iota. f_equal. now apply IH2.
        -- cbn [map]. rewrite (ascii_lower_fixes c1 Hup).
           cbn [camel_runs]. rewrite Hs1. f_equal. apply IH1; [first [reflexivity | assumption] |].
           cbn [uppers_follow_lowers] in Hf |- *. rewrite Hu2 in Hf |- *.
           exact Hf.
      * cbn [map]. rewrite (ascii_lower_fixes c1 Hup).
        cbn [camel_runs]. rewrite Hs1. f_equal.
        cbn [uppers_follow_lowers] in Hf.
        destruct (is_upper c2) eqn:Hu2; [discriminate Hf |].
        apply IH1; [first [reflexivity | assumption] |].
        cbn [uppers_follow_lowers]. rewrite Hu2. exact Hf.
  - intros Hup Hf. cbn [uppers_follow_lowers] in Hf.
    rewrite (upper_not_lower c1 Hup) in Hf. rewrite orb_true_r in Hf.
    cbn [andb] in Hf.
    rewrite (map_lower_hyphenate_cons c1 tl (upper_not_lower c1 Hup)).
    pose proof (ascii_lower_of_upper c1 Hup) as Hlow.
    cbn [after_run]. rewrite (alnum_not_sep _ (lower_alnum _ Hlow)).
    rewrite (upper_one _ Hu (lower_alnum _ Hlow)), (ascii_upper_lower c1 Hup).
    cbn [app]. f_equal.
    destruct tl as [| c2 r]; [reflexivity |].
    cbn [uppers_follow_lowers] in Hf.
    destruct (is_upper c2) eqn:Hu2; [discriminate Hf |].
    apply IH1; [first [reflexivity | assumption] |].
    cbn [uppers_follow_lowers]. rewrite Hu2. exact Hf.
Qed.

(** X16: a round trip. For a camelCase identifier in which every uppercase
    letter comes right after a lowercase letter, turning the folder name
    back into camelCase gives the identifier again:
    [convertToCamelCase (toDashCase s) = s]. The case conversions of the
    runtime are taken to act on ASCII strings letter by letter. *)
Theorem camelCase_of_folder_name (s : jsstring) :
  uppers_ascii toUpperCase ->
  lowers_ascii toLowerCase ->
  camelCase_name s ->
  uppers_follow_lowers false s = true ->
  convertToCamelCase (toDashCase s) = s.
Proof.
  intros Hu Hl Hs Hf.
  pose proof (camelCase_name_alnum s Hs) as Ha.
  rewrite (toDashCase_ascii s Hl Ha), convertToCamelCase_runs.
  destruct (roundtrip_runs s Hu Ha) as [H1 _].
  destruct Hs as (c & tl & -> & Hc & _).
  rewrite H1; [| now apply lower_not_upper | assumption].
  cbn [lower_leading]. now rewrite (lower_not_upper c Hc).
Qed.

(** X17: converting twice is converting once. For a name made of ASCII
    letters, digits and separators,
    [convertToCamelCase (convertToCamelCase s) = convertToCamelCase s]. The
    case conversions of the runtime are taken to act on ASCII strings letter
    by letter. *)
Theorem convertToCamelCase_idempotent (s : jsstring) :
  uppers_ascii toUpperCase ->
  lowers_ascii toLowerCase ->
  forallb (fun d => is_alnum d || is_sep d) s = true ->
  convertToCamelCase (convertToCamelCase s) = convertToCamelCase s.
Proof.
  intros Hu Hl Hs. rewrite !convertToCamelCase_runs.
  destruct (runs_alnum s Hu Hs) as [Ha _].
  destruct (camel_runs s) as [| c t]; [reflexivity |].
  inversion Ha as [| ? ? Hc Ht]; subst.
  assert (Hnt : Forall (fun d => is_sep d = false) t).
  { eapply Forall_impl; [| exact Ht]. intros d. apply alnum_not_sep. }
  cbn [lower_leading]. destruct (is_upper c) eqn:Hup.
  - rewrite (lower_one c Hl Hc). cbn [app].
    pose proof (ascii_lower_of_upper c Hup) as Hlow.
    rewrite camel_runs_no_sep
      by (constructor; [now apply alnum_not_sep, lower_alnum | assumption]).
    cbn [lower_leading]. now rewrite (lower_not_upper _ Hlow).
  - rewrite camel_runs_no_sep
      by (constructor; [now apply alnum_not_sep | assumption]).
    cbn [lower_leading]. now rewrite Hup.
Qed.

End Program.

(** * Concrete runs

    The statements above at concrete inputs, with the ASCII case
    conversions for the runtime's and the list-based disk for the file
    system. *)

Lemma ascii_toUpperCase_nonempty (c : cu) : ascii_toUpperCase [c] <> [].
Proof. discriminate. Qed.

Lemma ascii_toLowerCase_nonempty (c : cu) : ascii_toLowerCase [c] <> [].
Proof. discriminate. Qed.

Lemma ascii_lower_not_upper (c : cu) : is_upper (ascii_lower c) = false.
Proof.
  unfold ascii_lower. destruct (is_upper c) eqn:H; [| assumption].
  unfold is_upper, in_range in *.
  rewrite andb_true_iff, !N.leb_le in H.
  rewrite andb_false_iff, !N.leb_gt. lia.
Qed.

Lemma ascii_toLowerCase_no_upper (s : jsstring) (c : cu) :
  In c (ascii_toLowerCase s) -> is_upper c = false.
Proof.
  unfold ascii_toLowerCase. rewrite in_map_iff.
  intros (d & <- & _). apply ascii_lower_not_upper.
Qed.

Lemma ascii_toLowerCase_idempotent (s : jsstring) :
  ascii_toLowerCase (ascii_toLowerCase s) = ascii_toLowerCase s.
Proof.
  unfold ascii_toLowerCase. rewrite map_map. apply map_ext.
  intros c. unfold ascii_lower at 1. now rewrite ascii_lower_not_upper.
Qed.

Lemma dataTable_camelCase : camelCase_name (lit "dataTable").
Proof. apply camelCase_name_test. reflexivity. Qed.

Lemma user_profile_not_camelCase : ~ camelCase_name (lit "user-profile").
Proof. intros H. apply camelCase_name_test in H. discriminate H. Qed.

Lemma validate_accepts_camelCase_witness :
  camelCase_name (lit "dataTable")
  /\ validate ascii_toUpperCase ascii_toLowerCase (Some (lit "dataTable"))
     = mkValidation true (Some (lit "dataTable")) None None.
Proof.
  split; [exact dataTable_camelCase |].
  exact (validate_accepts_camelCase ascii_toUpperCase ascii_toLowerCase
           (lit "dataTable") dataTable_camelCase).
Defined.

Lemma validate_rejections_witness :
  validate ascii_toUpperCase ascii_toLowerCase None
  = mkValidation false None (Some (lit "Component name is required")) None
  /\ validate ascii_toUpperCase ascii_toLowerCase (Some (lit "user-profile"))
     = mkValidation false None (Some (lit "Component name must be camelCase"))
         (Some (convertToCamelCase ascii_toUpperCase ascii_toLowerCase
                  (lit "user-profile"))).
Proof.
  split.
  - apply (proj1 (validate_rejections ascii_toUpperCase ascii_toLowerCase None)).
    left. reflexivity.
  - apply (proj1 (proj2 (validate_rejections ascii_toUpperCase ascii_toLowerCase
                           (Some (lit "user-profile"))))).
    + reflexivity.
    + discriminate.
    + exact user_profile_not_camelCase.
Defined.

(** C5 as the specification states it fails at the name ["-"]: the name is
    not empty and not of the camelCase form, and the suggestion is the empty
    string. *)
Lemma suggestion_empty_for_hyphen :
  lit "-" <> []
  /\ ~ camelCase_name (lit "-")
  /\ validate ascii_toUpperCase ascii_toLowerCase (Some (lit "-"))
     = mkValidation false None (Some (lit "Component name must be camelCase"))
         (Some []).
Proof.
  split; [discriminate |]. split; [| reflexivity].
  intros H. apply camelCase_name_test in H. discriminate H.
Qed.

Lemma suggestion_nonempty_iff_witness :
  valid (validate ascii_toUpperCase ascii_toLowerCase (Some (lit "user-profile")))
  = false
  /\ suggestion (validate ascii_toUpperCase ascii_toLowerCase (Some (lit "user-profile")))
     = Some (convertToCamelCase ascii_toUpperCase ascii_toLowerCase (lit "user-profile"))
  /\ (convertToCamelCase ascii_toUpperCase ascii_toLowerCase (lit "user-profile") <> []
      <-> exists c, In c (lit "user-profile") /\ is_sep c = false).
Proof.
  apply (suggestion_nonempty_iff ascii_toUpperCase ascii_toLowerCase
           (lit "user-profile")).
  - exact ascii_toUpperCase_nonempty.
  - exact ascii_toLowerCase_nonempty.
  - discriminate.
  - exact user_profile_not_camelCase.
Defined.

Lemma toDashCase_idempotent_on_output_witness :
  toDashCase ascii_toLowerCase
    (toDashCase ascii_toLowerCase
       (convertToCamelCase ascii_toUpperCase ascii_toLowerCase (lit "user-profile")))
  = toDashCase ascii_toLowerCase
      (convertToCamelCase ascii_toUpperCase ascii_toLowerCase (lit "user-profile")).
Proof.
  apply (toDashCase_idempotent_on_output ascii_toUpperCase ascii_toLowerCase).
  - exact ascii_toLowerCase_no_upper.
  - exact ascii_toLowerCase_idempotent.
Defined.

Lemma convertToCamelCase_identity_on_valid_witness :
  camelCase_name (lit "dataTable")
  /\ convertToCamelCase ascii_toUpperCase ascii_toLowerCase (lit "dataTable")
     = lit "dataTable".
Proof.
  split; [exact dataTable_camelCase |].
  exact (convertToCamelCase_identity_on_valid ascii_toUpperCase ascii_toLowerCase
           (lit "dataTable") dataTable_camelCase).
Defined.

Lemma create_refuses_existing_directory_witness :
  let w := mkWorld Disk (mkDisk [lit "/home/dev/data-table"; home] []) [] [] in
  disk_exists (disk Disk w)
    (slash_join home (toDashCase ascii_toLowerCase (lit "dataTable"))) = true
  /\ exists w',
       create Disk disk_exists disk_mkdir disk_write slash_join home
         (new_ComponentGenerator ascii_toLowerCase (lit "dataTable") (Some (lit "ts"))) w
       = (Exited 1, w')
       /\ (1 <> 0)%Z
       /\ disk Disk w' = disk Disk w
       /\ fs_calls Disk w' =
          fs_calls Disk w ++
          [ExistsSync (slash_join home (toDashCase ascii_toLowerCase (lit "dataTable")))].
Proof.
  intros w. split; [reflexivity |].
  apply (create_refuses_existing_directory ascii_toLowerCase Disk disk_exists
           disk_mkdir disk_write slash_join home (lit "dataTable")
           (Some (lit "ts")) w).
  reflexivity.
Defined.

Lemma create_writes_three_files_witness :
  let w := mkWorld Disk (mkDisk [home] []) [] [] in
  let run :=
    create Disk disk_exists disk_mkdir disk_write slash_join home
      (new_ComponentGenerator ascii_toLowerCase (lit "dataTable") (Some (lit "js"))) w in
  fst run = Returned tt
  /\ fs_calls Disk (snd run) =
     [ ExistsSync (lit "/home/dev/data-table");
       MkdirSync (lit "/home/dev/data-table");
       WriteFileSync (lit "/home/dev/data-table/dataTable.component.js")
         (generateJsContent
            (new_ComponentGenerator ascii_toLowerCase (lit "dataTable")
               (Some (lit "js"))));
       WriteFileSync (lit "/home/dev/data-table/dataTable.component.html")
         (lit "<div>{{title}}</div>");
       WriteFileSync (lit "/home/dev/data-table/dataTable.component.style.html")
         (lit "<style></style>") ].
Proof.
  intros w run. split; [reflexivity |].
  assert (Hrun : run = (Returned tt, snd run)) by reflexivity.
  exact (proj1 (create_writes_three_files ascii_toLowerCase Disk disk_exists
                  disk_mkdir disk_write slash_join home (lit "dataTable")
                  (lit "js") w (snd run) Hrun)).
Defined.

Lemma invalid_language_exits_before_files_witness :
  let w := mkWorld Disk (mkDisk [home] []) [] [] in
  (is_language_flag (nth_error [lit "-n"; lit "dataTable"; lit "-l"; lit "xx"] 2) = true
   /\ exists w',
        main ascii_toUpperCase ascii_toLowerCase Disk disk_exists disk_mkdir
          disk_write slash_join home
          [lit "-n"; lit "dataTable"; lit "-l"; lit "xx"] w
        = (Exited 1, w')
        /\ (1 <> 0)%Z
        /\ disk Disk w' = disk Disk w /\ fs_calls Disk w' = fs_calls Disk w)
  /\ exists name,
       parseArgs ascii_toLowerCase Disk [lit "-n"; lit "dataTable"] w
       = (Returned (name, lit "ts"), w).
Proof.
  intros w. split; [split; [reflexivity |] |].
  - apply (proj1 (invalid_language_exits_before_files ascii_toUpperCase
                    ascii_toLowerCase Disk disk_exists disk_mkdir disk_write
                    slash_join home
                    [lit "-n"; lit "dataTable"; lit "-l"; lit "xx"] w) 2%nat).
    + reflexivity.
    + intros v Hv. injection Hv as <-. split; intros E; discriminate E.
  - apply (proj2 (invalid_language_exits_before_files ascii_toUpperCase
                    ascii_toLowerCase Disk disk_exists disk_mkdir disk_write
                    slash_join home [lit "-n"; lit "dataTable"] w)).
    intros [| [| [| i]]]; reflexivity.
Defined.

(** The scenarios of the specification. *)

Example scenario_user_profile :
  convertToCamelCase ascii_toUpperCase ascii_toLowerCase (lit "user-profile")
  = lit "userProfile"
  /\ toDashCase ascii_toLowerCase (lit "userProfile") = lit "user-profile".
Proof. split; reflexivity. Qed.

Example scenario_UserProfile :
  convertToCamelCase ascii_toUpperCase ascii_toLowerCase (lit "UserProfile")
  = lit "userProfile".
Proof. reflexivity. Qed.

Example scenario_dataTable :
  test re_camelCase (lit "dataTable") = true
  /\ toDashCase ascii_toLowerCase (lit "dataTable") = lit "data-table".
Proof. split; reflexivity. Qed.

Example scenario_separators_only :
  fst (main ascii_toUpperCase ascii_toLowerCase Disk disk_exists disk_mkdir
         disk_write slash_join home [lit "-n"; lit "-"]
         (mkWorld Disk (mkDisk [home] []) [] []))
  = Exited 1.
Proof. reflexivity. Qed.

(** ** Concrete runs of the further properties *)

Lemma ascii_uppers : uppers_ascii ascii_toUpperCase.
Proof. intros s _. reflexivity. Qed.

Lemma ascii_lowers : lowers_ascii ascii_toLowerCase.
Proof. intros s _. reflexivity. Qed.

Lemma ascii_upper_keeps_unseparated (d : cu) :
  is_sep d = false -> Forall (fun c => is_sep c = false) (ascii_toUpperCase [d]).
Proof.
  intros H. repeat constructor. unfold ascii_upper.
  destruct (is_lower d) eqn:Hl; [| assumption].
  apply alnum_not_sep. unfold is_alnum, is_lower, is_upper, is_digit, in_range in *.
  rewrite andb_true_iff, !N.leb_le in Hl.
  rewrite !orb_true_iff, !andb_true_iff, !N.leb_le. lia.
Qed.

Lemma ascii_lower_keeps_unseparated (d : cu) :
  is_upper d = true -> Forall (fun c => is_sep c = false) (ascii_toLowerCase [d]).
Proof.
  intros H. repeat constructor. unfold ascii_lower. rewrite H.
  apply alnum_not_sep. unfold is_alnum, is_lower, is_upper, is_digit, in_range in *.
  rewrite andb_true_iff, !N.leb_le in H.
  rewrite !orb_true_iff, !andb_true_iff, !N.leb_le. lia.
Qed.

Lemma parseArgs_last_name_wins_witness :
  let args := [lit "-n"; lit "first"; lit "-l"; lit "JS"; lit "--name"; lit "second"] in
  let w := mkWorld Disk (mkDisk [home] []) [] [] in
  parseArgs ascii_toLowerCase Disk args w = (Returned (Some (lit "second"), lit "js"), w)
  /\ Some (lit "second") = nth_error args (4 + 1).
Proof.
  intros args w.
  assert (Hrun : parseArgs ascii_toLowerCase Disk args w
                 = (Returned (Some (lit "second"), lit "js"), w)) by reflexivity.
  split; [exact Hrun |].
  apply (parseArgs_last_name_wins ascii_toLowerCase Disk args 4 w w
           (Some (lit "second")) (lit "js")); [reflexivity | | exact Hrun].
  intros j Hj. do 5 (destruct j as [| j]; [lia |]).
  destruct j as [| j]; [reflexivity |]. destruct j; reflexivity.
Defined.

Lemma parseArgs_last_language_wins_witness :
  let args := [lit "-l"; lit "ts"; lit "-n"; lit "first"; lit "--language"; lit "JS"] in
  let w := mkWorld Disk (mkDisk [home] []) [] [] in
  parseArgs ascii_toLowerCase Disk args w = (Returned (Some (lit "first"), lit "js"), w)
  /\ exists v, nth_error args (4 + 1) = Some v /\ lit "js" = ascii_toLowerCase v.
Proof.
  intros args w.
  assert (Hrun : parseArgs ascii_toLowerCase Disk args w
                 = (Returned (Some (lit "first"), lit "js"), w)) by reflexivity.
  split; [exact Hrun |].
  apply (parseArgs_last_language_wins ascii_toLowerCase Disk args 4 w w
           (Some (lit "first")) (lit "js")); [reflexivity | | exact Hrun].
  intros j Hj. do 5 (destruct j as [| j]; [lia |]).
  destruct j as [| j]; [reflexivity |]. destruct j; reflexivity.
Defined.

Lemma create_mkdir_failure_witness :
  let w := mkWorld Disk (mkDisk [home] []) [] [] in
  let this := new_ComponentGenerator ascii_toLowerCase (lit "dataTable") (Some (lit "ts")) in
  exists w',
    create Disk disk_exists denied_mkdir disk_write slash_join home this w
    = (Exited 1, w')
    /\ disk Disk w' = disk Disk w
    /\ console Disk w' =
       console Disk w
       ++ [failure_line (lit "EACCES: permission denied, mkdir '/home/dev/data-table'")]
    /\ fs_calls Disk w' =
       fs_calls Disk w ++ [ExistsSync (lit "/home/dev/data-table");
                           MkdirSync (lit "/home/dev/data-table")].
Proof.
  intros w this.
  apply (create_mkdir_failure Disk disk_exists denied_mkdir disk_write slash_join
           home this w); reflexivity.
Defined.


Lemma main_missing_name_witness :
  let args := [lit "-l"; lit "js"] in
  let w := mkWorld Disk (mkDisk [home] []) [] [] in
  exists w',
    main ascii_toUpperCase ascii_toLowerCase Disk disk_exists disk_mkdir disk_write
      slash_join home args w
    = (Exited 1, w')
    /\ disk Disk w' = disk Disk w /\ fs_calls Disk w' = fs_calls Disk w.
Proof.
  intros args w.
  apply (main_missing_name ascii_toUpperCase ascii_toLowerCase Disk disk_exists
           disk_mkdir disk_write slash_join home args w).
  intros [| [| [| j]]]; reflexivity.
Defined.

Lemma main_unusable_last_name_witness :
  let args := [lit "-n"; lit "dataTable"; lit "-n"; lit "--"] in
  let w := mkWorld Disk (mkDisk [home] []) [] [] in
  exists w',
    main ascii_toUpperCase ascii_toLowerCase Disk disk_exists disk_mkdir disk_write
      slash_join home args w
    = (Exited 1, w')
    /\ disk Disk w' = disk Disk w /\ fs_calls Disk w' = fs_calls Disk w.
Proof.
  intros args w.
  apply (main_unusable_last_name ascii_toUpperCase ascii_toLowerCase Disk
           disk_exists disk_mkdir disk_write slash_join home args 2 w).
  - reflexivity.
  - intros j Hj. do 3 (destruct j as [| j]; [lia |]).
    destruct j as [| j]; [reflexivity |]. destruct j; reflexivity.
  - intros s Hs. injection Hs as <-. reflexivity.
Defined.

Lemma main_effect_is_create_witness :
  let args := [lit "-n"; lit "user_profile"; lit "-l"; lit "JS"] in
  let w := mkWorld Disk (mkDisk [home] []) [] [] in
  let r :=
    create Disk disk_exists disk_mkdir disk_write slash_join home
      (new_ComponentGenerator ascii_toLowerCase (lit "userProfile") (Some (lit "js"))) w in
  let m :=
    main ascii_toUpperCase ascii_toLowerCase Disk disk_exists disk_mkdir disk_write
      slash_join home args w in
  fst m = fst r
  /\ disk Disk (snd m) = disk Disk (snd r)
  /\ fs_calls Disk (snd m) = fs_calls Disk (snd r).
Proof.
  intros args w.
  apply (main_effect_is_create ascii_toUpperCase ascii_toLowerCase Disk disk_exists
           disk_mkdir disk_write slash_join home args w
           (lit "user_profile") (lit "js")).
  - reflexivity.
  - discriminate.
Defined.

Lemma files_have_distinct_names_witness :
  NoDup
    (map name
       (files_of (new_ComponentGenerator ascii_toLowerCase (lit "dataTable")
                    (Some (lit "js"))))).
Proof.
  apply files_have_distinct_names. right. reflexivity.
Defined.

Lemma convertToCamelCase_no_separator_witness :
  Forall (fun c => is_sep c = false)
    (convertToCamelCase ascii_toUpperCase ascii_toLowerCase (lit "--my_new  widget-")).
Proof.
  apply (convertToCamelCase_no_separator ascii_toUpperCase ascii_toLowerCase).
  - exact ascii_upper_keeps_unseparated.
  - exact ascii_lower_keeps_unseparated.
Defined.

Lemma suggestion_is_camelCase_witness :
  camelCase_name
    (convertToCamelCase ascii_toUpperCase ascii_toLowerCase (lit "--my_new  widget-"))
  /\ valid (validate ascii_toUpperCase ascii_toLowerCase
              (Some (convertToCamelCase ascii_toUpperCase ascii_toLowerCase
                       (lit "--my_new  widget-")))) = true.
Proof.
  apply (suggestion_is_camelCase ascii_toUpperCase ascii_toLowerCase
           (lit "--my_new  widget-") 109).
  - exact ascii_uppers.
  - exact ascii_lowers.
  - reflexivity.
  - reflexivity.
  - reflexivity.
Defined.

Lemma folder_name_charset_witness :
  exists c tl,
    toDashCase ascii_toLowerCase (lit "dataTable2Go") = c :: tl
    /\ hd_error (lit "dataTable2Go") = Some c
    /\ is_lower c = true
    /\ forallb (fun d => is_lower d || is_digit d || (d =? 45)) tl = true.
Proof.
  apply (folder_name_charset ascii_toLowerCase (lit "dataTable2Go")).
  - exact ascii_lowers.
  - apply camelCase_name_test. reflexivity.
Defined.

Lemma camelCase_of_folder_name_witness :
  convertToCamelCase ascii_toUpperCase ascii_toLowerCase
    (toDashCase ascii_toLowerCase (lit "dataTableRow"))
  = lit "dataTableRow".
Proof.
  apply (camelCase_of_folder_name ascii_toUpperCase ascii_toLowerCase
           (lit "dataTableRow")).
  - exact ascii_uppers.
  - exact ascii_lowers.
  - apply camelCase_name_test. reflexivity.
  - reflexivity.
Defined.

Lemma convertToCamelCase_idempotent_witness :
  convertToCamelCase ascii_toUpperCase ascii_toLowerCase
    (convertToCamelCase ascii_toUpperCase ascii_toLowerCase (lit "My-new_widget"))
  = convertToCamelCase ascii_toUpperCase ascii_toLowerCase (lit "My-new_widget").
Proof.
  apply (convertToCamelCase_idempotent ascii_toUpperCase ascii_toLowerCase).
  - exact ascii_uppers.
  - exact ascii_lowers.
  - reflexivity.
Defined.
